(** * pynlpir.pos_map: part-of-speech code resolution

    A shallow embedding of [pynlpir/pos_map.py]: the nested [POS_MAP]
    literal and the recursive lookup [_get_pos_name] with its public
    wrapper [get_pos_name].

    Conventions of the embedding.
    - A Python string is a [string] of bytes.  Part-of-speech codes are
      ASCII; the Chinese display names are kept as their UTF-8 bytes and are
      only ever compared for equality.
    - [lower] is [str.lower] on ASCII text: it maps [A-Z] to [a-z].  It
      leaves every other byte alone, which [str.lower] does not (it maps
      U+212A to [k], and a capital sigma by its position in the word), so
      [lower] stands for the call [pos_code.lower()] on ASCII codes only.
      [is_ascii] is that domain, and the theorems that depend on what the
      lower-cased code is assume it of the code.
    - A dict literal is an association list in source order, read with
      [dict_get]; [POS_MAP_keys_unique] shows that no level of the literal
      repeats a key, so the reading does not depend on which duplicate wins.
    - A taxonomy entry is the 2- or 3-tuple of the source, one constructor
      per arity.
    - A call either returns a Python value or raises; [outcome] is the
      error monad threading that through the body.
    - Calls to [logger] have no effect on the result and are left out.

    Of [pynlpir/cli.py] the file embeds [_is_404], its one function that
    computes on values; the rest of that module drives the network, archive
    and file-system libraries. *)

From Stdlib Require Import String Ascii List Bool Arith Lia.
Import ListNotations.
Open Scope string_scope.
Open Scope list_scope.

Set Warnings "-register-all".

(** ** Python values and outcomes *)

Inductive pyval : Type :=
  | PNone
  | PStr (s : string)
  | PTuple (t : list pyval).

Inductive exn : Type :=
  | ValueError
  | UnboundLocalError
  | TypeError
  | IndexError
  | RecursionError.

Inductive outcome (A : Type) : Type :=
  | Return (a : A)
  | Raise (e : exn).

Arguments Return {A} a.
Arguments Raise {A} e.

Definition bind {A B : Type} (m : outcome A) (k : A -> outcome B) : outcome B :=
  match m with
  | Return a => k a
  | Raise e => Raise e
  end.

Notation "x <- m ;; k" := (bind m (fun x => k))
  (at level 61, m at next level, right associativity).

(** Truth value of an object, as tested by [if sub_pos]. *)
Definition truthy (v : pyval) : bool :=
  match v with
  | PNone => false
  | PStr EmptyString => false
  | PStr (String _ _) => true
  | PTuple [] => false
  | PTuple (_ :: _) => true
  end.

(** [pos + sub_pos] for a tuple [pos]: only another tuple can be added. *)
Definition tuple_add (pos : list pyval) (v : pyval) : outcome (list pyval) :=
  match v with
  | PTuple t => Return (pos ++ t)
  | _ => Raise TypeError
  end.

(** [pos[0]] and [pos[-1]]. *)
Definition tuple_first (pos : list pyval) : outcome pyval :=
  match pos with
  | [] => Raise IndexError
  | x :: _ => Return x
  end.

Definition tuple_last (pos : list pyval) : outcome pyval :=
  match pos with
  | [] => Raise IndexError
  | _ :: _ => Return (last pos PNone)
  end.

(** ** Strings *)

(** [s.lower()] for an ASCII string [s]. *)
Definition lower_ascii (c : ascii) : ascii :=
  let n := nat_of_ascii c in
  if ((65 <=? n) && (n <=? 90))%nat then ascii_of_nat (n + 32) else c.

Fixpoint lower (s : string) : string :=
  match s with
  | EmptyString => EmptyString
  | String c s' => String (lower_ascii c) (lower s')
  end.

(** The strings on which [lower] is [str.lower]: every character is below
    128. *)
Definition is_ascii_char (c : ascii) : bool := (nat_of_ascii c <? 128)%nat.

Fixpoint is_ascii (s : string) : bool :=
  match s with
  | EmptyString => true
  | String c s' => is_ascii_char c && is_ascii s'
  end.

(** [s[0:i]]. *)
Definition slice0 (s : string) (i : nat) : string := substring 0 i s.

(** [range(lo, hi)]. *)
Definition range (lo hi : nat) : list nat := seq lo (hi - lo).

Definition dquote : string := String (ascii_of_nat 34) EmptyString.

(** ** The taxonomy *)

Inductive entry : Type :=
  | Tuple2 (zh en : string)
  | Tuple3 (zh en : string) (sub_map : list (string * entry)).

Definition dict : Type := list (string * entry).

Definition entry_zh (e : entry) : string :=
  match e with Tuple2 zh _ | Tuple3 zh _ _ => zh end.

Definition entry_en (e : entry) : string :=
  match e with Tuple2 _ en | Tuple3 _ en _ => en end.

(** [pos_entry[1 if english else 0]]. *)
Definition entry_name (english : bool) (e : entry) : string :=
  if english then entry_en e else entry_zh e.

(** [pos_map[key]]; [None] stands for [KeyError]. *)
Fixpoint dict_get (pos_map : dict) (key : string) : option entry :=
  match pos_map with
  | [] => None
  | (k, v) :: rest => if k =? key then Some v else dict_get rest key
  end.

(** [POS_MAP]: the part-of-speech codes returned by NLPIR with their Chinese
    and English names, nested by sub-classification. *)
Definition POS_MAP : dict := [
    ("n", Tuple3 "名词" "noun" [
        ("nr", Tuple3 "人名" "personal name" [
            ("nr1", Tuple2 "汉语姓氏" "Chinese surname");
            ("nr2", Tuple2 "汉语名字" "Chinese given name");
            ("nrj", Tuple2 "日语人名" "Japanese personal name");
            ("nrf", Tuple2 "音译人名" "transcribed personal name")
        ]);
        ("ns", Tuple3 "地名" "toponym" [
            ("nsf", Tuple2 "音译地名" "transcribed toponym")
        ]);
        ("nt", Tuple2 "机构团体名" "organization/group name");
        ("nz", Tuple2 "其它专名" "other proper noun");
        ("nl", Tuple2 "名词性惯用语" "noun phrase");
        ("ng", Tuple2 "名词性语素" "noun morpheme")
    ]);
    ("t", Tuple3 "时间词" "time word" [
        ("tg", Tuple2 "时间词性语素" "time morpheme")
    ]);
    ("s", Tuple2 "处所词" "locative word");
    ("f", Tuple2 "方位词" "noun of locality");
    ("v", Tuple3 "动词" "verb" [
        ("vd", Tuple2 "副动词" "auxiliary verb");
        ("vn", Tuple2 "名动词" "noun-verb");
        ("vshi", Tuple2 ("动词" ++ dquote ++ "是" ++ dquote)%string "verb 是");
        ("vyou", Tuple2 ("动词" ++ dquote ++ "有" ++ dquote)%string "verb 有");
        ("vf", Tuple2 "趋向动词" "directional verb");
        ("vx", Tuple2 "行事动词" "performative verb");
        ("vi", Tuple2 "不及物动词" "intransitive verb");
        ("vl", Tuple2 "动词性惯用语" "verb phrase");
        ("vg", Tuple2 "动词性语素" "verb morpheme")
    ]);
    ("a", Tuple3 "形容词" "adjective" [
        ("ad", Tuple2 "副形词" "auxiliary adjective");
        ("an", Tuple2 "名形词" "noun-adjective");
        ("ag", Tuple2 "形容词性语素" "adjective morpheme");
        ("al", Tuple2 "形容词性惯用语" "adjective phrase")
    ]);
    ("b", Tuple3 "区别词" "distinguishing word" [
        ("bl", Tuple2 "区别词性惯用语" "distinguishing phrase")
    ]);
    ("z", Tuple2 "状态词" "status word");
    ("r", Tuple3 "代词" "pronoun" [
        ("rr", Tuple2 "人称代词" "personal pronoun");
        ("rz", Tuple3 "指示代词" "demonstrative pronoun" [
            ("rzt", Tuple2 "时间指示代词" "temporal demonstrative pronoun");
            ("rzs", Tuple2 "处所指示代词" "locative demonstrative pronoun");
            ("rzv", Tuple2 "谓词性指示代词" "predicate demonstrative pronoun")
        ]);
        ("ry", Tuple3 "疑问代词" "interrogative pronoun" [
            ("ryt", Tuple2 "时间疑问代词" "temporal interrogative pronoun");
            ("rys", Tuple2 "处所疑问代词" "locative interrogative pronoun");
            ("ryv", Tuple2 "谓词性疑问代词" "predicate interrogative pronoun")
        ]);
        ("rg", Tuple2 "代词性语素" "pronoun morpheme")
    ]);
    ("m", Tuple3 "数词" "numeral" [
        ("mq", Tuple2 "数量词" "numeral-plus-classifier compound")
    ]);
    ("q", Tuple3 "量词" "classifier" [
        ("qv", Tuple2 "动量词" "verbal classifier");
        ("qt", Tuple2 "时量词" "temporal classifier")
    ]);
    ("d", Tuple2 "副词" "adverb");
    ("p", Tuple3 "介词" "preposition" [
        ("pba", Tuple2 "介词“把”" "preposition 把");
        ("pbei", Tuple2 "介词“被”" "preposition 被")
    ]);
    ("c", Tuple3 "连词" "conjunction" [
        ("cc", Tuple2 "并列连词" "coordinating conjunction")
    ]);
    ("u", Tuple3 "助词" "particle" [
        ("uzhe", Tuple2 "着" "particle 着");
        ("ule", Tuple2 "了／喽" "particle 了/喽");
        ("uguo", Tuple2 "过" "particle 过");
        ("ude1", Tuple2 "的／底" "particle 的/底");
        ("ude2", Tuple2 "地" "particle 地");
        ("ude3", Tuple2 "得" "particle 得");
        ("usuo", Tuple2 "所" "particle 所");
        ("udeng", Tuple2 "等／等等／云云" "particle 等/等等/云云");
        ("uyy", Tuple2 "一样／一般／似的／般" "particle 一样/一般/似的/般");
        ("udh", Tuple2 "的话" "particle 的话");
        ("uls", Tuple2 "来讲／来说／而言／说来" "particle 来讲/来说/而言/说来");
        ("uzhi", Tuple2 "之" "particle 之");
        ("ulian", Tuple2 "连" "particle 连")
    ]);
    ("e", Tuple2 "叹词" "interjection");
    ("y", Tuple2 "语气词" "modal particle");
    ("o", Tuple2 "拟声词" "onomatopoeia");
    ("h", Tuple2 "前缀" "prefix");
    ("k", Tuple2 "后缀" "suffix");
    ("x", Tuple3 "字符串" "string" [
        ("xe", Tuple2 "Email字符串" "email address");
        ("xs", Tuple2 "微博会话分隔符" "hashtag");
        ("xm", Tuple2 "表情符合" "emoticon");
        ("xu", Tuple2 "网址URL" "URL");
        ("xx", Tuple2 "非语素字" "non-morpheme character")
    ]);
    ("w", Tuple3 "标点符号" "punctuation mark" [
        ("wkz", Tuple2 "左括号" "left parenthesis/bracket");
        ("wky", Tuple2 "右括号" "right parenthesis/bracket");
        ("wyz", Tuple2 "左引号" "left quotation mark");
        ("wyy", Tuple2 "右引号" "right quotation mark");
        ("wj", Tuple2 "句号" "period");
        ("ww", Tuple2 "问号" "question mark");
        ("wt", Tuple2 "叹号" "exclamation mark");
        ("wd", Tuple2 "逗号" "comma");
        ("wf", Tuple2 "分号" "semicolon");
        ("wn", Tuple2 "顿号" "enumeration comma");
        ("wm", Tuple2 "冒号" "colon");
        ("ws", Tuple2 "省略号" "ellipsis");
        ("wp", Tuple2 "破折号" "dash");
        ("wb", Tuple2 "百分号千分号" "percent/per mille sign");
        ("wh", Tuple2 "单位符号" "unit of measure sign")
    ]);
    ("g", Tuple3 "其他" "others" [
        ("ga", Tuple3 "通讯社" "news agency" [
            ("gaas", Tuple2 "通讯社as" "news agency as");
            ("gaau", Tuple2 "通讯社au" "news agency au");
            ("gacb", Tuple2 "通讯社cb" "news agency cb");
            ("gacn", Tuple2 "通讯社cn" "news agency cn");
            ("gaes", Tuple2 "通讯社es" "news agency es");
            ("gafr", Tuple2 "通讯社fr" "news agency fr");
            ("gagm", Tuple2 "通讯社gm" "news agency gm");
            ("gahk", Tuple2 "通讯社hk" "news agency hk");
            ("gaid", Tuple2 "通讯社id" "news agency id");
            ("gain", Tuple2 "通讯社in" "news agency in");
            ("gait", Tuple2 "通讯社it" "news agency it");
            ("gajp", Tuple2 "通讯社jp" "news agency jp");
            ("gakr", Tuple2 "通讯社kr" "news agency kr");
            ("gakrn", Tuple2 "通讯社krn" "news agency krn");
            ("game", Tuple2 "通讯社me" "news agency me");
            ("gars", Tuple2 "通讯社rs" "news agency rs");
            ("gatw", Tuple2 "通讯社tw" "news agency tw");
            ("gauk", Tuple2 "通讯社uk" "news agency uk");
            ("gaus", Tuple2 "通讯社us" "news agency us");
            ("gayr", Tuple2 "通讯社yr" "news agency yr")
        ]);
        ("gjtgj", Tuple2 "车辆" "vehicle");
        ("gms", Tuple2 "食物" "food");
        ("gn", Tuple3 "新闻" "news" [
            ("gnan", Tuple2 "新闻an" "news an");
            ("gnbj", Tuple2 "新闻bj" "news bj");
            ("gncq", Tuple2 "新闻cq" "news cq");
            ("gndq", Tuple2 "新闻dq" "news dq");
            ("gnfj", Tuple2 "新闻fj" "news fj");
            ("gngd", Tuple2 "新闻gd" "news gd");
            ("gngs", Tuple2 "新闻gs" "news gs");
            ("gngx", Tuple2 "新闻gx" "news gx");
            ("gngz", Tuple2 "新闻gz" "news gz");
            ("gnhan", Tuple2 "新闻han" "news han");
            ("gnheb", Tuple2 "新闻heb" "news heb");
            ("gnhen", Tuple2 "新闻hen" "news hen");
            ("gnhk", Tuple2 "新闻hk" "news hk");
            ("gnhl", Tuple2 "新闻hl" "news hl");
            ("gnhub", Tuple2 "新闻hub" "news hub");
            ("gnhun", Tuple2 "新闻hun" "news hun");
            ("gnjl", Tuple2 "新闻jl" "news jl");
            ("gnjs", Tuple2 "新闻js" "news js");
            ("gnjx", Tuple2 "新闻jx" "news jx");
            ("gnln", Tuple2 "新闻ln" "news ln");
            ("gnnx", Tuple2 "新闻nx" "news nx");
            ("gnqg", Tuple2 "新闻qg" "news qg");
            ("gnsa", Tuple2 "新闻sa" "news sa");
            ("gnsc", Tuple2 "新闻sc" "news sc");
            ("gnsd", Tuple2 "新闻sd" "news sd");
            ("gnsh", Tuple2 "新闻sh" "news sh");
            ("gnsx", Tuple2 "新闻sx" "news sx");
            ("gntj", Tuple2 "新闻tj" "news tj");
            ("gntw", Tuple2 "新闻tw" "news tw");
            ("gnxj", Tuple2 "新闻xj" "news xj");
            ("gnxz", Tuple2 "新闻xz" "news xz");
            ("gnyn", Tuple2 "新闻yn" "news yn");
            ("gnzj", Tuple2 "新闻zj" "news zj");
            ("gnzy", Tuple2 "新闻zy" "news zy")
        ]);
        ("gr", Tuple3 "广播电台" "radio station" [
            ("grc", Tuple2 "广播电台c" "radio station c");
            ("grjyy", Tuple2 "广播电台jyy" "radio station jyy");
            ("grqg", Tuple2 "广播电台qg" "radio station qg");
            ("grs", Tuple2 "广播电台s" "radio station s")
        ]);
        ("gt", Tuple3 "电视台" "tv station" [
            ("gtc", Tuple2 "电视台c" "tv station c");
            ("gthk", Tuple2 "电视台hk" "tv station hk");
            ("gtqg", Tuple2 "电视台qg" "tv station qg");
            ("gts", Tuple2 "电视台s" "tv station s");
            ("gtw", Tuple2 "电视台w" "tv station w")
        ]);
        ("gw", Tuple3 "网站" "website" [
            ("gwah", Tuple2 "网站ah" "website ah");
            ("gwbj", Tuple2 "网站bj" "website bj");
            ("gwcj", Tuple2 "网站cj" "website cj");
            ("gwcq", Tuple2 "网站cq" "website cq");
            ("gwdb", Tuple2 "网站db" "website db");
            ("gwdc", Tuple2 "网站dc" "website dc");
            ("gwfj", Tuple2 "网站fj" "website fj");
            ("gwgd", Tuple2 "网站gd" "website gd");
            ("gwgs", Tuple2 "网站gs" "website gs");
            ("gwgx", Tuple2 "网站gx" "website gx");
            ("gwhan", Tuple2 "网站han" "website han");
            ("gwheb", Tuple2 "网站heb" "website heb");
            ("gwhen", Tuple2 "网站hen" "website hen");
            ("gwhl", Tuple2 "网站hl" "website hl");
            ("gwhub", Tuple2 "网站hub" "website hub");
            ("gwhun", Tuple2 "网站hun" "website hun");
            ("gwit", Tuple2 "网站it" "website it");
            ("gwnm", Tuple2 "网站nm" "website nm");
            ("gwqc", Tuple2 "网站qc" "website qc");
            ("gwqh", Tuple2 "网站qh" "website qh");
            ("gwqz", Tuple2 "网站qz" "website qz");
            ("gwsa", Tuple2 "网站sa" "website sa");
            ("gwsc", Tuple2 "网站sc" "website sc");
            ("gwsd", Tuple2 "网站sd" "website sd");
            ("gwsh", Tuple2 "网站sh" "website sh");
            ("gwss", Tuple2 "网站ss" "website ss");
            ("gwsx", Tuple2 "网站sx" "website sx");
            ("gwsz", Tuple2 "网站sz" "website sz");
            ("gwtj", Tuple2 "网站tj" "website tj");
            ("gwxj", Tuple2 "网站xj" "website xj");
            ("gwyn", Tuple2 "网站yn" "website yn");
            ("gwz", Tuple2 "网站z" "website z");
            ("gwzj", Tuple2 "网站zj" "website zj")
        ])
    ])
].

(** ** The lookup *)

(** How the [for] loop of [_get_pos_name] is left. *)
Inductive loop_exit : Type :=
  | Broke (pos_key : string) (pos_entry : entry)  (* [break] *)
  | Returned                                      (* [return None] *)
  | FellThrough.                                  (* the range ran out *)

(** The loop over the candidate prefix lengths:
    [pos_key = pos_code[0:i]; pos_entry = pos_map[pos_key]; break], and on
    [KeyError] a [return None] once [i] is the length of the code. *)
Fixpoint for_loop (pos_code : string) (pos_map : dict) (rng : list nat)
  : loop_exit :=
  match rng with
  | [] => FellThrough
  | i :: rng' =>
      let pos_key := slice0 pos_code i in
      match dict_get pos_map pos_key with
      | Some pos_entry => Broke pos_key pos_entry
      | None =>
          if (i =? String.length pos_code)%nat then Returned
          else for_loop pos_code pos_map rng'
      end
  end.

Definition valid_names : list string := ["parent"; "child"; "all"].

(** [names in ('parent', 'child', 'all')]. *)
Definition names_ok (names : string) : bool :=
  existsb (String.eqb names) valid_names.

(** The body of [_get_pos_name]; [self] is the function called at the
    recursive call site. *)
Definition _get_pos_name_body
    (self : string -> string -> bool -> dict -> outcome pyval)
    (pos_code names : string) (english : bool) (pos_map : dict)
  : outcome pyval :=
  let pos_code := lower pos_code in
  if negb (names_ok names) then Raise ValueError
  else
    match for_loop pos_code pos_map (range 1 (String.length pos_code + 1)) with
    | Returned => Return PNone
    | FellThrough => Raise UnboundLocalError  (* [pos_entry] was never bound *)
    | Broke pos_key pos_entry =>
        let pos := [PStr (entry_name english pos_entry)] in
        if names =? "parent" then tuple_first pos
        else
          pos <- match pos_entry with
                 | Tuple3 _ _ sub_map =>
                     if negb (pos_key =? pos_code) then
                       sub_pos <- self pos_code names english sub_map ;;
                       if names =? "all" then
                         if truthy sub_pos then tuple_add pos sub_pos
                         else Return pos
                       else Return [sub_pos]
                     else Return pos
                 | Tuple2 _ _ => Return pos
                 end ;;
          if names =? "all" then Return (PTuple pos) else tuple_last pos
    end.

(** The recursion, with the depth of the call stack made explicit: [fuel]
    bounds the number of nested calls. *)
Fixpoint _get_pos_name_rec (fuel : nat)
  : string -> string -> bool -> dict -> outcome pyval :=
  match fuel with
  | O => fun _ _ _ _ => Raise RecursionError
  | S fuel' => _get_pos_name_body (_get_pos_name_rec fuel')
  end.

(** Nesting depth: the number of levels below a map's own. *)
Fixpoint entry_depth (e : entry) : nat :=
  match e with
  | Tuple2 _ _ => 0
  | Tuple3 _ _ sub_map =>
      S (list_max (map (fun kv => entry_depth (snd kv)) sub_map))
  end.

Definition dict_depth (pos_map : dict) : nat :=
  list_max (map (fun kv => entry_depth (snd kv)) pos_map).

(** [_get_pos_name(pos_code, names, english, pos_map)].  One call per
    nesting level of [pos_map] is all the recursion can use
    ([_get_pos_name_rec_fuel]), and with that [_get_pos_name] satisfies the
    equation of the source ([_get_pos_name_unfold]). *)
Definition _get_pos_name (pos_code names : string) (english : bool)
    (pos_map : dict) : outcome pyval :=
  _get_pos_name_rec (S (dict_depth pos_map)) pos_code names english pos_map.

(** [get_pos_name(code, name, english)]: the lookup in [POS_MAP]. *)
Definition get_pos_name (code name : string) (english : bool)
  : outcome pyval :=
  _get_pos_name code name english POS_MAP.

(** ** Vocabulary of the statements *)

(** The match of the prefix scan at one level: the shortest prefix
    [pos_code[0:i]], [1 <= i <= len(pos_code)], that is a key of [pos_map]. *)
Definition first_match (pos_map : dict) (pos_code : string) (i : nat)
    (e : entry) : Prop :=
  1 <= i <= String.length pos_code /\
  dict_get pos_map (slice0 pos_code i) = Some e /\
  forall j, 1 <= j < i -> dict_get pos_map (slice0 pos_code j) = None.

(** No prefix of [pos_code] is a key of [pos_map]. *)
Definition no_match (pos_map : dict) (pos_code : string) : Prop :=
  forall j, 1 <= j <= String.length pos_code ->
    dict_get pos_map (slice0 pos_code j) = None.

(** The descent through the levels, each step being the [first_match] of
    its level.  [descent c m p ok]: [p] lists the entries matched from the
    level of [m] downwards; [ok] tells whether the descent stopped at a
    matched entry (a 2-tuple, or a key equal to the whole code), or because
    the scan of a deeper level found nothing. *)
Inductive descent (c : string) : dict -> list entry -> bool -> Prop :=
  | descent_miss m :
      no_match m c -> descent c m [] false
  | descent_leaf m i zh en :
      first_match m c i (Tuple2 zh en) -> descent c m [Tuple2 zh en] true
  | descent_whole m i e :
      first_match m c i e -> slice0 c i = c -> descent c m [e] true
  | descent_into m i zh en sub_map p ok :
      first_match m c i (Tuple3 zh en sub_map) -> slice0 c i <> c ->
      descent c sub_map p ok ->
      descent c m (Tuple3 zh en sub_map :: p) ok.

(** The tuple of display names of a list of entries. *)
Definition names_of (english : bool) (p : list entry) : list pyval :=
  map (fun e => PStr (entry_name english e)) p.

(** [a] is a strict textual prefix of [d]. *)
Definition strict_prefix (a d : string) : Prop :=
  prefix a d = true /\ String.length a < String.length d.

Definition strict_prefixb (a d : string) : bool :=
  prefix a d && (String.length a <? String.length d)%nat.

(** The codes below an entry, at any depth. *)
Fixpoint descendant_codes (e : entry) : list string :=
  match e with
  | Tuple2 _ _ => []
  | Tuple3 _ _ sub_map =>
      flat_map (fun kv => fst kv :: descendant_codes (snd kv)) sub_map
  end.

(** Every node of a map, at any depth, with its code. *)
Fixpoint entry_nodes (k : string) (e : entry) : list (string * entry) :=
  (k, e) ::
  match e with
  | Tuple2 _ _ => []
  | Tuple3 _ _ sub_map =>
      flat_map (fun kv => entry_nodes (fst kv) (snd kv)) sub_map
  end.

Definition all_nodes (pos_map : dict) : list (string * entry) :=
  flat_map (fun kv => entry_nodes (fst kv) (snd kv)) pos_map.

(** The leaves of a map (entries without a sub-map), each with its code and
    the entries on the way to it, outermost first, the leaf last. *)
Fixpoint entry_leaves (above : list entry) (k : string) (e : entry)
  : list (string * list entry) :=
  match e with
  | Tuple2 _ _ => [(k, above ++ [e])]
  | Tuple3 _ _ sub_map =>
      flat_map (fun kv => entry_leaves (above ++ [e]) (fst kv) (snd kv))
        sub_map
  end.

Definition leaves (pos_map : dict) : list (string * list entry) :=
  flat_map (fun kv => entry_leaves [] (fst kv) (snd kv)) pos_map.

(** No key occurs twice in a map, at any level. *)
Fixpoint keys_uniqueb (keys : list string) : bool :=
  match keys with
  | [] => true
  | k :: rest => negb (existsb (String.eqb k) rest) && keys_uniqueb rest
  end.

Fixpoint entry_keys_unique (e : entry) : bool :=
  match e with
  | Tuple2 _ _ => true
  | Tuple3 _ _ sub_map =>
      keys_uniqueb (map fst sub_map) &&
      forallb (fun kv => entry_keys_unique (snd kv)) sub_map
  end.

Definition dict_keys_unique (pos_map : dict) : bool :=
  keys_uniqueb (map fst pos_map) &&
  forallb (fun kv => entry_keys_unique (snd kv)) pos_map.

(** Boolean tests on outcomes, for checking the table by evaluation. *)
Fixpoint tuple_strs_eqb (t : list pyval) (l : list string) : bool :=
  match t, l with
  | [], [] => true
  | PStr s :: t', s' :: l' => (s =? s') && tuple_strs_eqb t' l'
  | _, _ => false
  end.

Definition returns_str (r : outcome pyval) (s : string) : bool :=
  match r with
  | Return (PStr s') => s' =? s
  | _ => false
  end.

Definition returns_strs (r : outcome pyval) (l : list string) : bool :=
  match r with
  | Return (PTuple t) => tuple_strs_eqb t l
  | _ => false
  end.

(** Every node of a map, at any depth, with its code and the entries on
    the way to it, outermost first, the node itself last. *)
Fixpoint entry_paths (above : list entry) (k : string) (e : entry)
  : list (string * list entry) :=
  (k, above ++ [e]) ::
  match e with
  | Tuple2 _ _ => []
  | Tuple3 _ _ sub_map =>
      flat_map (fun kv => entry_paths (above ++ [e]) (fst kv) (snd kv))
        sub_map
  end.

Definition paths (pos_map : dict) : list (string * list entry) :=
  flat_map (fun kv => entry_paths [] (fst kv) (snd kv)) pos_map.

(** ** The command-line interface: [_is_404]

    From [pynlpir/cli.py].  [headers] is the message object that
    [urlretrieve] returns beside the file name; the function reads its
    attribute [headers], the list of the raw header lines. *)

Record Message : Type := { headers : list string }.

(** The [for ... else] of [_is_404]: [return True] at the first line that
    starts with the marker, [return False] when the lines ran out. *)
Fixpoint _is_404_loop (lines : list string) : bool :=
  match lines with
  | [] => false
  | header :: rest =>
      if prefix "Status: 404 Not Found" header then true
      else _is_404_loop rest
  end.

Definition _is_404 (hdrs : Message) : bool := _is_404_loop (headers hdrs).

(** * Properties *)

(** ** Strings: lower-casing and prefixes *)

Lemma lower_ascii_idem (c : ascii) : lower_ascii (lower_ascii c) = lower_ascii c.
Proof.
  destruct c as [[] [] [] [] [] [] [] []]; reflexivity.
Qed.

Lemma lower_idem (s : string) : lower (lower s) = lower s.
Proof.
  induction s as [|c s IH]; simpl.
  - reflexivity.
  - now rewrite lower_ascii_idem, IH.
Qed.

Lemma lower_empty (s : string) : lower s = EmptyString <-> s = EmptyString.
Proof.
  destruct s; simpl; split; congruence.
Qed.

Lemma slice0_prefix (s : string) (i : nat) : prefix (slice0 s i) s = true.
Proof.
  unfold slice0. revert s.
  induction i as [|i IH]; intros [|c s]; simpl; auto.
  destruct (ascii_dec c c) as [_|ne]; [apply IH | now elim ne].
Qed.

(** ** The prefix scan *)

Lemma for_loop_Broke_get c m rng k e :
  for_loop c m rng = Broke k e -> dict_get m k = Some e.
Proof.
  induction rng as [|i rng IH]; simpl; [discriminate|].
  destruct (dict_get m (slice0 c i)) eqn:G.
  - intros [= <- <-]. exact G.
  - destruct (i =? String.length c)%nat; [discriminate | exact IH].
Qed.

(** What each way of leaving the loop says about the scanned lengths
    [a .. len(c)]. *)
Lemma for_loop_seq c m n : forall a,
  a + n = S (String.length c) ->
  match for_loop c m (seq a n) with
  | Broke k e =>
      exists i, a <= i <= String.length c /\ k = slice0 c i /\
        dict_get m (slice0 c i) = Some e /\
        forall j, a <= j < i -> dict_get m (slice0 c j) = None
  | Returned =>
      a <= String.length c /\
      forall j, a <= j <= String.length c -> dict_get m (slice0 c j) = None
  | FellThrough => n = 0
  end.
Proof.
  induction n as [|n IH]; intros a Hlen; simpl; [reflexivity|].
  destruct (dict_get m (slice0 c a)) eqn:G.
  - exists a. repeat split; try lia; auto; intros j Hj; lia.
  - destruct (Nat.eqb_spec a (String.length c)) as [Ha|Ha].
    + split; [lia|]. intros j Hj. replace j with a by lia. exact G.
    + specialize (IH (S a) ltac:(lia)).
      destruct (for_loop c m (seq (S a) n)) as [k e| |].
      * destruct IH as (i & Hi & -> & Gi & Hbefore).
        exists i. repeat split; try lia; auto.
        intros j Hj. destruct (Nat.eq_dec j a) as [->|]; [exact G|].
        apply Hbefore; lia.
      * destruct IH as [Hle Hall]. split; [lia|].
        intros j Hj. destruct (Nat.eq_dec j a) as [->|]; [exact G|].
        apply Hall; lia.
      * lia.
Qed.

Lemma range_1_len n : range 1 (n + 1) = seq 1 n.
Proof. unfold range. f_equal. lia. Qed.

Lemma first_match_unique m c i e i' e' :
  first_match m c i e -> first_match m c i' e' -> i = i' /\ e = e'.
Proof.
  intros (Hi & G & B) (Hi' & G' & B').
  assert (i = i') as <-.
  { destruct (Nat.lt_trichotomy i i') as [L|[E|L]]; auto.
    - rewrite (B' i) in G by lia. discriminate.
    - rewrite (B i') in G' by lia. discriminate. }
  split; congruence.
Qed.

Lemma for_loop_first_match m c i e :
  first_match m c i e ->
  for_loop c m (range 1 (String.length c + 1)) = Broke (slice0 c i) e.
Proof.
  intros FM. rewrite range_1_len.
  pose proof (for_loop_seq c m (String.length c) 1 ltac:(lia)) as L.
  destruct (for_loop c m (seq 1 (String.length c))) as [k e'| |].
  - destruct L as (i' & Hi' & -> & G' & B').
    assert (FM' : first_match m c i' e').
    { repeat split; auto; lia. }
    destruct (first_match_unique m c i e i' e' FM FM') as [<- <-].
    reflexivity.
  - destruct FM as (Hi & G & _). destruct L as [_ Hall].
    rewrite Hall in G by lia. discriminate.
  - destruct FM as (Hi & _). lia.
Qed.

Lemma for_loop_no_match m c :
  c <> EmptyString -> no_match m c ->
  for_loop c m (range 1 (String.length c + 1)) = Returned.
Proof.
  intros Hne NM. rewrite range_1_len.
  pose proof (for_loop_seq c m (String.length c) 1 ltac:(lia)) as L.
  destruct (for_loop c m (seq 1 (String.length c))) as [k e'| |].
  - destruct L as (i & Hi & _ & G & _). rewrite NM in G by lia. discriminate.
  - reflexivity.
  - destruct c; [congruence | discriminate].
Qed.

(** The scan leaves the loop in exactly one of three ways. *)
Lemma for_loop_cases m c :
  (c = EmptyString /\
   for_loop c m (range 1 (String.length c + 1)) = FellThrough) \/
  (c <> EmptyString /\ no_match m c /\
   for_loop c m (range 1 (String.length c + 1)) = Returned) \/
  (exists i e, first_match m c i e /\
   for_loop c m (range 1 (String.length c + 1)) = Broke (slice0 c i) e).
Proof.
  rewrite range_1_len.
  pose proof (for_loop_seq c m (String.length c) 1 ltac:(lia)) as L.
  destruct (for_loop c m (seq 1 (String.length c))) as [k e| |].
  - right; right. destruct L as (i & Hi & -> & G & B).
    exists i, e. repeat split; auto; lia.
  - right; left. destruct L as [Hle Hall].
    repeat split; auto. intros ->; simpl in Hle; lia.
  - left. split; auto. destruct c; [reflexivity | discriminate].
Qed.

(** ** Depth of the recursion *)

Lemma dict_get_depth m k e :
  dict_get m k = Some e -> entry_depth e <= dict_depth m.
Proof.
  unfold dict_depth.
  induction m as [|[k' e'] m IH]; simpl; [discriminate|].
  destruct (k' =? k).
  - intros [= ->]. lia.
  - intros G. specialize (IH G). lia.
Qed.

Lemma dict_get_sub_depth m k zh en sub_map :
  dict_get m k = Some (Tuple3 zh en sub_map) ->
  dict_depth sub_map < dict_depth m.
Proof.
  intros G. apply dict_get_depth in G. simpl in G.
  unfold dict_depth at 1. lia.
Qed.

(** The body only calls [self] on maps nested strictly deeper. *)
Lemma _get_pos_name_body_ext self1 self2 c names english m :
  (forall c' sub_map, dict_depth sub_map < dict_depth m ->
     self1 c' names english sub_map = self2 c' names english sub_map) ->
  _get_pos_name_body self1 c names english m =
  _get_pos_name_body self2 c names english m.
Proof.
  intros Hself. unfold _get_pos_name_body.
  destruct (negb (names_ok names)); [reflexivity|].
  destruct (for_loop _ m _) as [k e| |] eqn:L; try reflexivity.
  destruct (names =? "parent"); [reflexivity|].
  destruct e as [zh en|zh en sub_map]; [reflexivity|].
  destruct (negb (k =? lower c)); [|reflexivity].
  rewrite Hself; [reflexivity|].
  apply for_loop_Broke_get in L.
  eapply dict_get_sub_depth; eauto.
Qed.

(** Any fuel above the depth of the map gives the same outcome. *)
Lemma _get_pos_name_rec_fuel_eq : forall f1 f2 c names english m,
  dict_depth m < f1 -> dict_depth m < f2 ->
  _get_pos_name_rec f1 c names english m =
  _get_pos_name_rec f2 c names english m.
Proof.
  induction f1 as [|f1 IH]; intros [|f2] c names english m H1 H2; try lia.
  cbn [_get_pos_name_rec]. apply _get_pos_name_body_ext.
  intros c' sub_map Hd. apply IH; lia.
Qed.

Lemma _get_pos_name_rec_fuel fuel c names english m :
  dict_depth m < fuel ->
  _get_pos_name_rec fuel c names english m = _get_pos_name c names english m.
Proof.
  intros H. unfold _get_pos_name. apply _get_pos_name_rec_fuel_eq; lia.
Qed.

(** [_get_pos_name] satisfies the equation of the source function. *)
Lemma _get_pos_name_unfold c names english m :
  _get_pos_name c names english m =
  _get_pos_name_body _get_pos_name c names english m.
Proof.
  unfold _get_pos_name at 1. cbn [_get_pos_name_rec].
  apply _get_pos_name_body_ext.
  intros c' sub_map Hd. apply _get_pos_name_rec_fuel. exact Hd.
Qed.

(** ** One call, case by case *)

Lemma names_ok_In names : names_ok names = true <-> In names valid_names.
Proof.
  unfold names_ok. rewrite existsb_exists. split.
  - intros (x & Hx & E). apply String.eqb_eq in E. now subst.
  - intros H. exists names. split; [exact H | apply String.eqb_refl].
Qed.

Lemma _get_pos_name_invalid c names english m :
  names_ok names = false -> _get_pos_name c names english m = Raise ValueError.
Proof.
  intros H. rewrite _get_pos_name_unfold. unfold _get_pos_name_body.
  now rewrite H.
Qed.

Lemma _get_pos_name_empty c names english m :
  names_ok names = true -> lower c = EmptyString ->
  _get_pos_name c names english m = Raise UnboundLocalError.
Proof.
  intros H E. rewrite _get_pos_name_unfold. unfold _get_pos_name_body.
  rewrite H, E. reflexivity.
Qed.

Lemma _get_pos_name_miss c names english m :
  names_ok names = true -> lower c <> EmptyString -> no_match m (lower c) ->
  _get_pos_name c names english m = Return PNone.
Proof.
  intros H Hne NM. rewrite _get_pos_name_unfold. unfold _get_pos_name_body.
  rewrite H, (for_loop_no_match _ _ Hne NM). reflexivity.
Qed.

Lemma _get_pos_name_parent c english m i e :
  first_match m (lower c) i e ->
  _get_pos_name c "parent" english m = Return (PStr (entry_name english e)).
Proof.
  intros FM. rewrite _get_pos_name_unfold. unfold _get_pos_name_body.
  rewrite (for_loop_first_match _ _ _ _ FM). reflexivity.
Qed.

(** The descent stops at a 2-tuple, and at a key equal to the whole code. *)
Lemma _get_pos_name_stop c english m i e :
  first_match m (lower c) i e ->
  (forall zh en sub_map, e = Tuple3 zh en sub_map ->
     slice0 (lower c) i = lower c) ->
  _get_pos_name c "child" english m = Return (PStr (entry_name english e)) /\
  _get_pos_name c "all" english m =
    Return (PTuple [PStr (entry_name english e)]).
Proof.
  intros FM Hstop. rewrite !_get_pos_name_unfold. unfold _get_pos_name_body.
  rewrite (for_loop_first_match _ _ _ _ FM).
  destruct e as [zh en|zh en sub_map]; [split; reflexivity|].
  rewrite (Hstop _ _ _ eq_refl), (String.eqb_refl (lower c)).
  split; reflexivity.
Qed.

Lemma _get_pos_name_into_child c english m i zh en sub_map :
  first_match m (lower c) i (Tuple3 zh en sub_map) ->
  slice0 (lower c) i <> lower c ->
  _get_pos_name c "child" english m =
  _get_pos_name (lower c) "child" english sub_map.
Proof.
  intros FM Hne. rewrite _get_pos_name_unfold at 1. unfold _get_pos_name_body.
  rewrite (for_loop_first_match _ _ _ _ FM).
  apply String.eqb_neq in Hne. rewrite Hne.
  generalize (_get_pos_name (lower c) "child" english sub_map).
  intros [v|x]; reflexivity.
Qed.

Lemma _get_pos_name_into_all c english m i zh en sub_map :
  first_match m (lower c) i (Tuple3 zh en sub_map) ->
  slice0 (lower c) i <> lower c ->
  _get_pos_name c "all" english m =
  (sub_pos <- _get_pos_name (lower c) "all" english sub_map ;;
   pos <- (if truthy sub_pos then tuple_add [PStr (if english then en else zh)] sub_pos
           else Return [PStr (if english then en else zh)]) ;;
   Return (PTuple pos)).
Proof.
  intros FM Hne. rewrite _get_pos_name_unfold at 1. unfold _get_pos_name_body.
  rewrite (for_loop_first_match _ _ _ _ FM).
  apply String.eqb_neq in Hne. rewrite Hne.
  generalize (_get_pos_name (lower c) "all" english sub_map).
  intros [v|x]; [|reflexivity].
  cbn. destruct (truthy v); [|reflexivity].
  destruct (tuple_add _ v); reflexivity.
Qed.

(** ** The descent decides the result *)

Lemma descent_ok_nonempty c m p :
  descent c m p true -> p <> [].
Proof.
  intros D. remember true as ok eqn:E.
  induction D; try discriminate; intros [=].
Qed.

(** For a lower-case, non-empty code, the three results read off the
    descent: the names of all entries on it, of its first entry, and of its
    last entry provided the descent did not end on a failed deeper scan. *)
Lemma descent_sound c m p ok :
  descent c m p ok -> lower c = c -> c <> EmptyString ->
  forall english,
    _get_pos_name c "all" english m =
      Return (match p with [] => PNone | _ => PTuple (names_of english p) end) /\
    _get_pos_name c "child" english m =
      Return (if ok then last (names_of english p) PNone else PNone) /\
    _get_pos_name c "parent" english m =
      Return (match p with [] => PNone | e :: _ => PStr (entry_name english e) end).
Proof.
  intros D Hlow Hne.
  induction D as [m NM|m i zh en FM|m i e FM Hw|m i zh en sub_map p ok FM Hw D IH];
    intros english.
  - rewrite <- Hlow in NM, Hne.
    repeat split; apply _get_pos_name_miss; auto.
  - rewrite <- Hlow in FM.
    destruct (_get_pos_name_stop c english m i _ FM) as [Hc Ha];
      [discriminate|].
    repeat split; auto. eapply _get_pos_name_parent; eauto.
  - rewrite <- Hlow in FM.
    destruct (_get_pos_name_stop c english m i _ FM) as [Hc Ha].
    { intros; rewrite Hlow; exact Hw. }
    repeat split; auto. eapply _get_pos_name_parent; eauto.
  - destruct (IH english) as (IHa & IHc & _).
    assert (FM' := FM). rewrite <- Hlow in FM'.
    assert (Hw' : slice0 (lower c) i <> lower c) by (rewrite Hlow; exact Hw).
    repeat split.
    + rewrite (_get_pos_name_into_all _ _ _ _ _ _ _ FM' Hw'), Hlow, IHa.
      destruct p as [|e p]; reflexivity.
    + rewrite (_get_pos_name_into_child _ _ _ _ _ _ _ FM' Hw'), Hlow, IHc.
      destruct ok; [|reflexivity].
      apply descent_ok_nonempty in D. destruct p; [congruence | reflexivity].
    + eapply _get_pos_name_parent; eauto.
Qed.

Lemma descent_exists c : forall n m,
  dict_depth m <= n -> exists p ok, descent c m p ok.
Proof.
  induction n as [|n IH]; intros m Hd;
    (destruct (for_loop_cases m c) as [[E _]|[(_ & NM & _)|(i & e & FM & _)]];
     [ exists [], false; apply descent_miss; subst c; intros j Hj; simpl in Hj; lia
     | exists [], false; apply descent_miss; exact NM
     | ]);
    (destruct e as [zh en|zh en sub_map];
     [ exists [Tuple2 zh en], true; eapply descent_leaf; eauto | ]);
    (destruct (string_dec (slice0 c i) c) as [Hw|Hw];
     [ exists [Tuple3 zh en sub_map], true; eapply descent_whole; eauto | ]);
    pose proof (dict_get_sub_depth _ _ _ _ _ (proj1 (proj2 FM))) as Hsub.
  - lia.
  - destruct (IH sub_map ltac:(lia)) as (p & ok & D).
    exists (Tuple3 zh en sub_map :: p), ok. eapply descent_into; eauto.
Qed.

Lemma descent_total c m : exists p ok, descent c m p ok.
Proof. apply (descent_exists c (dict_depth m)). apply le_n. Qed.

(** Lower-casing twice is lower-casing once, so the call on the lower-cased
    code is the same call. *)
Lemma _get_pos_name_lower c names english m :
  _get_pos_name c names english m = _get_pos_name (lower c) names english m.
Proof.
  rewrite !_get_pos_name_unfold. unfold _get_pos_name_body.
  rewrite lower_idem. reflexivity.
Qed.

(** The outcome of any call with a valid [names]. *)
Lemma _get_pos_name_outcome c names english m :
  In names valid_names ->
  (lower c = EmptyString /\
   _get_pos_name c names english m = Raise UnboundLocalError) \/
  (lower c <> EmptyString /\
   exists p ok, descent (lower c) m p ok /\
     _get_pos_name c names english m =
     Return (if names =? "all" then
               match p with [] => PNone | _ => PTuple (names_of english p) end
             else if names =? "child" then
               if ok then last (names_of english p) PNone else PNone
             else
               match p with [] => PNone | e :: _ => PStr (entry_name english e) end)).
Proof.
  intros Hn. destruct (string_dec (lower c) EmptyString) as [E|E].
  - left. split; auto. apply _get_pos_name_empty; auto.
    now apply names_ok_In.
  - right. split; auto.
    destruct (descent_total (lower c) m) as (p & ok & D).
    exists p, ok. split; auto.
    rewrite _get_pos_name_lower.
    destruct (descent_sound _ _ _ _ D (lower_idem c) E english) as (Ha & Hc & Hp).
    simpl in Hn. destruct Hn as [<-|[<-|[<-|[]]]]; assumption.
Qed.

(** The descent of a code through a map is unique. *)
Lemma first_match_no_match m c i e : first_match m c i e -> ~ no_match m c.
Proof.
  intros (Hi & G & _) NM. rewrite NM in G by lia. discriminate.
Qed.

Ltac same_match :=
  match goal with
  | F1 : first_match ?m ?c _ _, F2 : first_match ?m ?c _ _ |- _ =>
      let Ei := fresh "Ei" in
      let Ee := fresh "Ee" in
      destruct (first_match_unique _ _ _ _ _ _ F1 F2) as [Ei Ee]; clear F2;
      try discriminate Ee; try (injection Ee; intros); subst
  end.

Lemma descent_deterministic c m p ok :
  descent c m p ok -> forall p' ok', descent c m p' ok' -> p = p' /\ ok = ok'.
Proof.
  induction 1 as [m NM|m i zh en FM|m i e FM Hw|m i zh en sub_map p ok FM Hw D IH];
    intros p' ok' D'; inversion D'; subst;
    try (exfalso; eapply first_match_no_match; eassumption);
    try same_match; try contradiction; auto.
  match goal with D'' : descent _ _ _ _ |- _ =>
    destruct (IH _ _ D'') as [<- <-] end.
  auto.
Qed.

(** The three results of a call on a non-empty code, read off one descent. *)
Lemma _get_pos_name_results c english m :
  lower c <> EmptyString ->
  exists p ok,
    descent (lower c) m p ok /\
    _get_pos_name c "all" english m =
      Return (match p with [] => PNone | _ => PTuple (names_of english p) end) /\
    _get_pos_name c "child" english m =
      Return (if ok then last (names_of english p) PNone else PNone) /\
    _get_pos_name c "parent" english m =
      Return (match p with [] => PNone | e :: _ => PStr (entry_name english e) end).
Proof.
  intros Hne. destruct (descent_total (lower c) m) as (p & ok & D).
  exists p, ok. split; [exact D|].
  rewrite !(_get_pos_name_lower c).
  exact (descent_sound _ _ _ _ D (lower_idem c) Hne english).
Qed.

(** A deeper scan that finds nothing: ['all'] keeps the names matched so
    far, ['child'] returns [None]. *)
Lemma failed_deeper_scan c english m p :
  lower c <> EmptyString -> descent (lower c) m p false ->
  _get_pos_name c "all" english m =
    Return (match p with [] => PNone | _ => PTuple (names_of english p) end) /\
  _get_pos_name c "child" english m = Return PNone.
Proof.
  intros Hne D. rewrite !(_get_pos_name_lower c).
  destruct (descent_sound _ _ _ _ D (lower_idem c) Hne english) as (Ha & Hc & _).
  auto.
Qed.

(** The empty code leaves the loop without binding [pos_entry]: the call
    raises instead of returning [None]. *)
Lemma get_pos_name_empty_code names english :
  In names valid_names ->
  get_pos_name EmptyString names english = Raise UnboundLocalError.
Proof.
  intros Hn. apply _get_pos_name_empty; [now apply names_ok_In | reflexivity].
Qed.

(** ** Keys and prefixes *)

Lemma dict_get_In m k e : dict_get m k = Some e -> In (k, e) m.
Proof.
  induction m as [|[k' e'] m IH]; simpl; [discriminate|].
  destruct (String.eqb_spec k' k) as [->|_].
  - intros [= ->]. now left.
  - intros G. right. auto.
Qed.

Lemma no_key_prefix_no_match m c :
  (forall k, In k (map fst m) -> prefix k c = false) -> no_match m c.
Proof.
  intros Hk j _. destruct (dict_get m (slice0 c j)) as [e|] eqn:G; auto.
  apply dict_get_In in G. apply (in_map fst) in G. simpl in G.
  apply Hk in G. rewrite slice0_prefix in G. discriminate.
Qed.

(** ** The table *)

(** [POS_MAP] is a well-formed dict literal: no level repeats a key. *)
Lemma POS_MAP_keys_unique : dict_keys_unique POS_MAP = true.
Proof. vm_compute. reflexivity. Qed.

Lemma tuple_strs_eqb_eq t l : tuple_strs_eqb t l = true -> t = map PStr l.
Proof.
  revert l. induction t as [|v t IH]; intros [|s' l]; simpl;
    try discriminate; auto.
  - destruct v; discriminate.
  - destruct v as [|s|]; try discriminate.
    intros H. apply andb_true_iff in H as [E H].
    apply String.eqb_eq in E. subst. f_equal. auto.
Qed.

Lemma returns_str_eq r s : returns_str r s = true -> r = Return (PStr s).
Proof.
  destruct r as [[|s'|]|]; simpl; try discriminate.
  intros E. apply String.eqb_eq in E. now subst.
Qed.

Lemma returns_strs_eq r l :
  returns_strs r l = true -> r = Return (PTuple (map PStr l)).
Proof.
  destruct r as [[| |t]|]; simpl; try discriminate.
  intros E. apply tuple_strs_eqb_eq in E. now subst.
Qed.

Lemma names_of_map english p :
  names_of english p = map PStr (map (entry_name english) p).
Proof. unfold names_of. now rewrite map_map. Qed.

Lemma last_map_PStr l :
  l <> [] -> last (map PStr l) PNone = PStr (last l EmptyString).
Proof.
  induction l as [|s l IH]; [congruence|]. intros _.
  destruct l as [|s' l]; [reflexivity|].
  change (last (map PStr (s' :: l)) PNone = PStr (last (s' :: l) EmptyString)).
  apply IH. discriminate.
Qed.

(** Every other leaf resolves to its own name and to its whole path. *)
Lemma leaves_resolve (code : string) (path : list entry) (english : bool) :
  In (code, path) (leaves POS_MAP) ->
  code <> "gakrn" -> code <> "gwzj" ->
  get_pos_name code "child" english =
    Return (last (names_of english path) PNone) /\
  get_pos_name code "all" english = Return (PTuple (names_of english path)).
Proof.
  assert (F : forallb
    (fun cp =>
       (fst cp =? "gakrn") || (fst cp =? "gwzj") ||
       forallb (fun english =>
           let l := map (entry_name english) (snd cp) in
           negb (List.length l =? 0)%nat &&
           returns_str (get_pos_name (fst cp) "child" english)
                       (last l EmptyString) &&
           returns_strs (get_pos_name (fst cp) "all" english) l)
         [true; false])
    (leaves POS_MAP) = true) by (vm_compute; reflexivity).
  intros Hin N1 N2. rewrite forallb_forall in F.
  specialize (F _ Hin). cbn [fst snd] in F.
  apply orb_true_iff in F as [F|F].
  { apply orb_true_iff in F as [F|F]; apply String.eqb_eq in F; contradiction. }
  rewrite forallb_forall in F.
  specialize (F english ltac:(destruct english; simpl; auto)).
  apply andb_true_iff in F as [F Fa]. apply andb_true_iff in F as [Fl Fc].
  apply returns_str_eq in Fc. apply returns_strs_eq in Fa.
  rewrite names_of_map, Fc, Fa. split; [|reflexivity].
  rewrite last_map_PStr; [reflexivity|].
  intros E. rewrite E in Fl. discriminate.
Qed.

(** ** Claims *)

(** C1 (fails on the code for [names='child']).  The code ["nx"] matches the
    entry ["n"], which has a sub-map, and no key of that sub-map is a prefix
    of ["nx"].  With [names='all'] the lookup keeps the names matched so far
    and returns [('noun',)]; with [names='child'] it returns [None], not
    the name of the deepest entry matched. *)
Theorem C1_child_is_None_after_failed_deeper_scan :
  exists zh en sub_map,
    first_match POS_MAP "nx" 1 (Tuple3 zh en sub_map) /\
    no_match sub_map "nx" /\
    get_pos_name "nx" "all" true = Return (PTuple [PStr "noun"]) /\
    get_pos_name "nx" "child" true = Return PNone.
Proof.
  do 3 eexists. split; [|split; [|split]].
  - split; [simpl; lia|]. split; [reflexivity|]. intros j Hj; lia.
  - intros j Hj. simpl in Hj.
    assert (j = 1 \/ j = 2) as [->| ->] by lia; reflexivity.
  - vm_compute. reflexivity.
  - vm_compute. reflexivity.
Qed.

(** C2, as stated, fails at ["qq_unknown_code"]: its first letter is the
    top-level code ["q"], so the lookup returns that entry's name. *)
Lemma C2_qq_unknown_code_is_classifier :
  get_pos_name "qq_unknown_code" "parent" true = Return (PStr "classifier") /\
  get_pos_name "qq_unknown_code" "parent" true <> Return PNone.
Proof.
  assert (E : get_pos_name "qq_unknown_code" "parent" true =
              Return (PStr "classifier")) by (vm_compute; reflexivity).
  split; [exact E | rewrite E; discriminate].
Qed.

(** C2 (amended).  For every non-empty ASCII code such that no top-level
    code of the taxonomy is a prefix of its lower-cased form, the lookup
    returns [None], whichever of the three kinds of name and whichever
    language is asked for; it does not raise. *)
Theorem C2_unmatched_code_is_None (code names : string) (english : bool) :
  In names valid_names ->
  is_ascii code = true ->
  code <> EmptyString ->
  (forall k, In k (map fst POS_MAP) -> prefix k (lower code) = false) ->
  get_pos_name code names english = Return PNone.
Proof.
  intros Hn _ Hne Hk. apply _get_pos_name_miss.
  - now apply names_ok_In.
  - now rewrite lower_empty.
  - now apply no_key_prefix_no_match.
Qed.

Lemma C2_unmatched_code_is_None_witness :
  In "child" valid_names /\
  is_ascii "jj_unknown" = true /\
  "jj_unknown" <> EmptyString /\
  (forall k, In k (map fst POS_MAP) -> prefix k (lower "jj_unknown") = false) /\
  get_pos_name "jj_unknown" "child" false = Return PNone.
Proof.
  assert (Hn : In "child" valid_names) by (simpl; auto).
  assert (Ha : is_ascii "jj_unknown" = true) by reflexivity.
  assert (Hne : "jj_unknown" <> EmptyString) by discriminate.
  assert (Hk : forall k, In k (map fst POS_MAP) ->
                 prefix k (lower "jj_unknown") = false).
  { assert (F : forallb (fun k => negb (prefix k (lower "jj_unknown")))
                  (map fst POS_MAP) = true) by reflexivity.
    intros k Hin. rewrite forallb_forall in F.
    apply F in Hin. now apply negb_true_iff in Hin. }
  exact (conj Hn (conj Ha (conj Hne (conj Hk
    (C2_unmatched_code_is_None "jj_unknown" "child" false Hn Ha Hne Hk))))).
Defined.

(** C3.  The lookup raises [ValueError] exactly when [names] is not one of
    ['parent'], ['child'], ['all'].  With such a [names] it raises whatever
    the code, the language and the map are: the test comes before the scan,
    and nothing is returned. *)
Theorem C3_ValueError_iff_names_invalid
    (pos_code names : string) (english : bool) (pos_map : dict) :
  _get_pos_name pos_code names english pos_map = Raise ValueError <->
  ~ In names valid_names.
Proof.
  split.
  - intros H Hn.
    destruct (_get_pos_name_outcome pos_code names english pos_map Hn)
      as [[_ E]|(_ & p & ok & _ & E)]; rewrite E in H; discriminate.
  - intros Hn. apply _get_pos_name_invalid.
    destruct (names_ok names) eqn:E; [|reflexivity].
    apply names_ok_In in E. contradiction.
Qed.

(** C4.  The lookup does not depend on the case of the code: an ASCII code
    and its lower-cased form give the same outcome for every [names] and
    language; so do ["NR"] and ["nr"]. *)
Theorem C4_case_insensitive (code names : string) (english : bool) :
  is_ascii code = true ->
  get_pos_name code names english = get_pos_name (lower code) names english /\
  get_pos_name "NR" names english = get_pos_name "nr" names english.
Proof.
  intros _. split.
  - apply _get_pos_name_lower.
  - apply (_get_pos_name_lower "NR").
Qed.

Lemma C4_case_insensitive_witness :
  is_ascii "UdH" = true /\
  get_pos_name "UdH" "child" false = get_pos_name (lower "UdH") "child" false /\
  get_pos_name "NR" "child" false = get_pos_name "nr" "child" false.
Proof.
  assert (Ha : is_ascii "UdH" = true) by reflexivity.
  exact (conj Ha (C4_case_insensitive "UdH" "child" false Ha)).
Defined.

(** C5.  The documented examples: ["nrj"] is a noun, more precisely a
    Japanese personal name, by way of personal name; ["udh"] is 的话. *)
Theorem C5_examples :
  get_pos_name "nrj" "parent" true = Return (PStr "noun") /\
  get_pos_name "nrj" "child" true = Return (PStr "Japanese personal name") /\
  get_pos_name "nrj" "all" true =
    Return (PTuple [PStr "noun"; PStr "personal name";
                    PStr "Japanese personal name"]) /\
  get_pos_name "udh" "child" false = Return (PStr "的话").
Proof.
  split; [|split; [|split]]; vm_compute; reflexivity.
Qed.

(** C6 (fails on the code at two leaves).  ["gakrn"] and ["gwzj"] are leaves
    of the taxonomy, named "news agency krn" and "website zj".  Their
    siblings ["gakr"] and ["gwz"] are prefixes of them and are met first by
    the scan, so the lookup returns the siblings' names. *)
Theorem C6_leaves_shadowed_by_a_sibling :
  exists path_krn path_zj,
    In ("gakrn", path_krn) (leaves POS_MAP) /\
    names_of true path_krn =
      [PStr "others"; PStr "news agency"; PStr "news agency krn"] /\
    get_pos_name "gakrn" "child" true = Return (PStr "news agency kr") /\
    get_pos_name "gakrn" "all" true =
      Return (PTuple [PStr "others"; PStr "news agency"; PStr "news agency kr"]) /\
    In ("gwzj", path_zj) (leaves POS_MAP) /\
    names_of true path_zj = [PStr "others"; PStr "website"; PStr "website zj"] /\
    get_pos_name "gwzj" "child" true = Return (PStr "website z") /\
    get_pos_name "gwzj" "all" true =
      Return (PTuple [PStr "others"; PStr "website"; PStr "website z"]).
Proof.
  destruct (find (fun cp => fst cp =? "gakrn") (leaves POS_MAP))
    as [[c1 p1]|] eqn:F1; [|vm_compute in F1; discriminate].
  destruct (find (fun cp => fst cp =? "gwzj") (leaves POS_MAP))
    as [[c2 p2]|] eqn:F2; [|vm_compute in F2; discriminate].
  exists p1, p2.
  pose proof (find_some _ _ F1) as [In1 E1].
  pose proof (find_some _ _ F2) as [In2 E2].
  apply String.eqb_eq in E1, E2. simpl in E1, E2. subst c1 c2.
  vm_compute in F1. vm_compute in F2.
  injection F1 as <-. injection F2 as <-.
  repeat (split; [first [assumption | vm_compute; reflexivity]|]).
  vm_compute; reflexivity.
Qed.



(** C8.  The lookup is the descent through the levels of the map in which
    the match of a level is the shortest prefix of the (lower-cased) code,
    of a length from 1 to the length of the code, that is a key of that
    level: for a non-empty ASCII code there is such a descent, and the
    three results are read off it.  A match that is the whole code ends the
    descent, even at an entry with a sub-map. *)
Theorem C8_prefix_scan_descent
    (pos_code : string) (english : bool) (pos_map : dict) :
  is_ascii pos_code = true ->
  lower pos_code <> EmptyString ->
  (exists p ok,
     descent (lower pos_code) pos_map p ok /\
     _get_pos_name pos_code "all" english pos_map =
       Return (match p with [] => PNone | _ => PTuple (names_of english p) end) /\
     _get_pos_name pos_code "child" english pos_map =
       Return (if ok then last (names_of english p) PNone else PNone) /\
     _get_pos_name pos_code "parent" english pos_map =
       Return (match p with
               | [] => PNone
               | e :: _ => PStr (entry_name english e)
               end)) /\
  (forall i e,
     first_match pos_map (lower pos_code) i e ->
     slice0 (lower pos_code) i = lower pos_code ->
     _get_pos_name pos_code "child" english pos_map =
       Return (PStr (entry_name english e)) /\
     _get_pos_name pos_code "all" english pos_map =
       Return (PTuple [PStr (entry_name english e)])).
Proof.
  intros _ Hne. split.
  - apply _get_pos_name_results. exact Hne.
  - intros i e FM Hw. apply (_get_pos_name_stop pos_code english pos_map i e FM).
    intros; exact Hw.
Qed.

Lemma C8_prefix_scan_descent_witness :
  is_ascii "NR" = true /\
  lower "NR" <> EmptyString /\
  exists zh en sub_map,
    first_match POS_MAP (lower "NR") 1 (Tuple3 zh en sub_map) /\
    first_match sub_map (lower "NR") 2
      (Tuple3 "人名" "personal name"
         [("nr1", Tuple2 "汉语姓氏" "Chinese surname");
          ("nr2", Tuple2 "汉语名字" "Chinese given name");
          ("nrj", Tuple2 "日语人名" "Japanese personal name");
          ("nrf", Tuple2 "音译人名" "transcribed personal name")]) /\
    _get_pos_name "NR" "child" true sub_map = Return (PStr "personal name") /\
    _get_pos_name "NR" "all" true sub_map =
      Return (PTuple [PStr "personal name"]).
Proof.
  assert (Ha : is_ascii "NR" = true) by reflexivity.
  assert (Hne : lower "NR" <> EmptyString) by discriminate.
  split; [exact Ha|]. split; [exact Hne|].
  do 3 eexists. split.
  { split; [simpl; lia|]. split; [reflexivity|]. intros j Hj; lia. }
  match goal with |- first_match ?m _ _ ?e /\ _ =>
    assert (FM : first_match m (lower "NR") 2 e) end.
  { split; [simpl; lia|]. split; [reflexivity|].
    intros j Hj. replace j with 1 by lia. reflexivity. }
  split; [exact FM|].
  exact (proj2 (C8_prefix_scan_descent "NR" true _ Ha Hne) 2 _ FM eq_refl).
Defined.

(** C9.  In [POS_MAP] the code of every node, at every level, is a strict
    prefix of the code of each node below it: a prefix, and shorter. *)
Theorem C9_codes_nest (k : string) (e : entry) (d : string) :
  In (k, e) (all_nodes POS_MAP) ->
  In d (descendant_codes e) ->
  strict_prefix k d.
Proof.
  assert (F : forallb (fun ke =>
                forallb (strict_prefixb (fst ke)) (descendant_codes (snd ke)))
              (all_nodes POS_MAP) = true) by (vm_compute; reflexivity).
  intros Hn Hd. rewrite forallb_forall in F.
  specialize (F _ Hn). cbn [fst snd] in F.
  rewrite forallb_forall in F. specialize (F _ Hd).
  unfold strict_prefixb in F. apply andb_true_iff in F as [Fp Fl].
  split; [exact Fp | now apply Nat.ltb_lt].
Qed.

Lemma C9_codes_nest_witness :
  In ("ns", Tuple3 "地名" "toponym"
              [("nsf", Tuple2 "音译地名" "transcribed toponym")])
     (all_nodes POS_MAP) /\
  In "nsf" (descendant_codes
              (Tuple3 "地名" "toponym"
                 [("nsf", Tuple2 "音译地名" "transcribed toponym")])) /\
  strict_prefix "ns" "nsf".
Proof.
  assert (Hn : In ("ns", Tuple3 "地名" "toponym"
                           [("nsf", Tuple2 "音译地名" "transcribed toponym")])
                  (all_nodes POS_MAP)).
  { apply (nth_error_In _ 6). reflexivity. }
  assert (Hd : In "nsf" (descendant_codes
                 (Tuple3 "地名" "toponym"
                    [("nsf", Tuple2 "音译地名" "transcribed toponym")])))
    by (simpl; auto).
  exact (conj Hn (conj Hd (C9_codes_nest "ns" _ "nsf" Hn Hd))).
Defined.

(** C10.  The three kinds of name agree.  Whenever ['all'] returns a
    non-empty tuple, its first element is what ['parent'] returns; whenever
    ['child'] returns a name (not [None]), that name is the last element of
    the tuple that ['all'] returns. *)
Theorem C10_granularities_agree
    (pos_code : string) (english : bool) (pos_map : dict) :
  (forall x t,
     _get_pos_name pos_code "all" english pos_map = Return (PTuple (x :: t)) ->
     _get_pos_name pos_code "parent" english pos_map = Return x) /\
  (forall v,
     _get_pos_name pos_code "child" english pos_map = Return v ->
     v <> PNone ->
     exists t,
       _get_pos_name pos_code "all" english pos_map = Return (PTuple t) /\
       t <> [] /\ last t PNone = v).
Proof.
  destruct (string_dec (lower pos_code) EmptyString) as [E|E].
  - split; intros; rewrite _get_pos_name_empty in *;
      try discriminate; auto; reflexivity.
  - destruct (_get_pos_name_results pos_code english pos_map E)
      as (p & ok & _ & Ha & Hc & Hp).
    rewrite Ha, Hc, Hp. split.
    + intros x t H. destruct p as [|e p]; [discriminate|].
      injection H as <- _. reflexivity.
    + intros v H Hv. injection H as <-.
      destruct ok; [|congruence].
      destruct p as [|e p]; [simpl in Hv; congruence|].
      exists (names_of english (e :: p)).
      split; [reflexivity|]. split; [discriminate | reflexivity].
Qed.

Lemma C10_granularities_agree_witness :
  _get_pos_name "nrj" "all" true POS_MAP =
    Return (PTuple [PStr "noun"; PStr "personal name";
                    PStr "Japanese personal name"]) /\
  _get_pos_name "nrj" "parent" true POS_MAP = Return (PStr "noun") /\
  _get_pos_name "nrj" "child" true POS_MAP =
    Return (PStr "Japanese personal name") /\
  exists t,
    _get_pos_name "nrj" "all" true POS_MAP = Return (PTuple t) /\
    t <> [] /\ last t PNone = PStr "Japanese personal name".
Proof.
  assert (Ha : _get_pos_name "nrj" "all" true POS_MAP =
    Return (PTuple [PStr "noun"; PStr "personal name";
                    PStr "Japanese personal name"])) by (vm_compute; reflexivity).
  assert (Hc : _get_pos_name "nrj" "child" true POS_MAP =
    Return (PStr "Japanese personal name")) by (vm_compute; reflexivity).
  assert (Hv : PStr "Japanese personal name" <> PNone) by discriminate.
  exact (conj Ha
    (conj (proj1 (C10_granularities_agree "nrj" true POS_MAP) _ _ Ha)
    (conj Hc
          (proj2 (C10_granularities_agree "nrj" true POS_MAP) _ Hc Hv)))).
Defined.

(** ** Further properties of the lookup *)

Lemma lower_app a b : lower (a ++ b) = (lower a ++ lower b)%string.
Proof. induction a as [|x a IH]; simpl; [reflexivity | now rewrite IH]. Qed.

Lemma length_app a b :
  String.length (a ++ b) = String.length a + String.length b.
Proof. induction a as [|x a IH]; simpl; [reflexivity | now rewrite IH]. Qed.

Lemma slice0_app a b i :
  i <= String.length a -> slice0 (a ++ b) i = slice0 a i.
Proof.
  unfold slice0. revert a.
  induction i as [|i IH]; intros [|x a] H; simpl in *; try reflexivity.
  - destruct b; reflexivity.
  - lia.
  - f_equal. apply IH. lia.
Qed.

Lemma slice0_length s i : String.length (slice0 s i) = Nat.min i (String.length s).
Proof.
  unfold slice0. revert s.
  induction i as [|i IH]; intros [|x s]; simpl; auto.
Qed.

Lemma slice0_all s : slice0 s (String.length s) = s.
Proof.
  unfold slice0. induction s as [|x s IH]; simpl; [reflexivity | now rewrite IH].
Qed.

Lemma prefix_length k c : prefix k c = true -> String.length k <= String.length c.
Proof.
  revert k. induction c as [|y c IH]; intros [|x k]; simpl; try discriminate;
    try lia.
  destruct (ascii_dec x y); [|discriminate].
  intros H. apply IH in H. lia.
Qed.

Lemma prefix_slice0 k c : prefix k c = true -> slice0 c (String.length k) = k.
Proof. intros H. now apply prefix_correct. Qed.

Lemma In_key_dict_get m k :
  In k (map fst m) -> exists e, dict_get m k = Some e.
Proof.
  induction m as [|[k' e'] m IH]; simpl; [tauto|].
  intros [->|H].
  - rewrite String.eqb_refl. eauto.
  - destruct (k' =? k); eauto.
Qed.

Lemma no_match_iff_no_key_prefix m c :
  no_match m c <->
  (forall k, In k (map fst m) -> k <> EmptyString -> prefix k c = false).
Proof.
  split.
  - intros NM k Hin Hne. destruct (prefix k c) eqn:P; [|reflexivity].
    destruct (In_key_dict_get _ _ Hin) as [e G].
    rewrite <- (prefix_slice0 _ _ P) in G.
    rewrite NM in G; [discriminate|].
    split; [destruct k; [congruence | simpl; lia] | now apply prefix_length].
  - intros Hk j Hj. destruct (dict_get m (slice0 c j)) as [e|] eqn:G; auto.
    apply dict_get_In in G. apply (in_map fst) in G. simpl in G.
    apply Hk in G.
    + rewrite slice0_prefix in G. discriminate.
    + intros E. apply (f_equal String.length) in E.
      rewrite slice0_length in E. simpl in E. lia.
Qed.

(** X1.  With a valid [names], a call raises exactly when the code is the
    empty string, and what it raises then is [UnboundLocalError]: the loop
    over the prefix lengths never runs and [pos_entry] is read unbound. *)
Theorem X1_raises_iff_code_empty
    (pos_code names : string) (english : bool) (pos_map : dict) :
  In names valid_names ->
  ((exists x, _get_pos_name pos_code names english pos_map = Raise x) <->
   pos_code = EmptyString) /\
  (forall x, _get_pos_name pos_code names english pos_map = Raise x ->
     x = UnboundLocalError).
Proof.
  intros Hn.
  destruct (_get_pos_name_outcome pos_code names english pos_map Hn)
    as [[E R]|(E & p & ok & _ & R)]; rewrite R.
  - rewrite lower_empty in E. split.
    + split; intros _; [exact E | exists UnboundLocalError; reflexivity].
    + intros x H. now injection H as <-.
  - rewrite lower_empty in E. split.
    + split; [intros [x H]; discriminate | contradiction].
    + discriminate.
Qed.

Lemma X1_raises_iff_code_empty_witness :
  In "all" valid_names /\
  _get_pos_name EmptyString "all" false POS_MAP = Raise UnboundLocalError.
Proof.
  assert (Hn : In "all" valid_names) by (simpl; auto).
  destruct (X1_raises_iff_code_empty EmptyString "all" false POS_MAP Hn)
    as [[_ R] U].
  destruct (R eq_refl) as [x Hx].
  split; [exact Hn|]. rewrite Hx. f_equal. exact (U x Hx).
Defined.

(** X2.  With a valid [names] and a non-empty code a call returns, and the
    value has the documented type: [None] or a string for ['parent'] and
    ['child'], [None] or a non-empty tuple of strings for ['all']. *)
Theorem X2_result_types
    (pos_code names : string) (english : bool) (pos_map : dict) :
  In names valid_names -> pos_code <> EmptyString ->
  _get_pos_name pos_code names english pos_map = Return PNone \/
  (names <> "all" /\
   exists s, _get_pos_name pos_code names english pos_map = Return (PStr s)) \/
  (names = "all" /\
   exists l, l <> [] /\
     _get_pos_name pos_code names english pos_map = Return (PTuple (map PStr l))).
Proof.
  intros Hn Hne.
  destruct (_get_pos_name_outcome pos_code names english pos_map Hn)
    as [[E _]|(_ & p & ok & D & R)].
  { rewrite lower_empty in E. contradiction. }
  rewrite R. simpl in Hn. destruct Hn as [<-|[<-|[<-|[]]]]; cbn.
  - destruct p as [|e p]; [now left|].
    right; left. split; [discriminate | eauto].
  - destruct ok; [|now left].
    apply descent_ok_nonempty in D.
    right; left. split; [discriminate|].
    rewrite names_of_map, last_map_PStr; [eauto|].
    destruct p; [congruence | discriminate].
  - destruct p as [|e p]; [now left|].
    right; right. split; [reflexivity|].
    exists (map (entry_name english) (e :: p)).
    split; [discriminate | now rewrite names_of_map].
Qed.

Lemma X2_result_types_witness :
  In "all" valid_names /\ "NSF" <> EmptyString /\
  (_get_pos_name "NSF" "all" true POS_MAP = Return PNone \/
   ("all" <> "all" /\
    exists s, _get_pos_name "NSF" "all" true POS_MAP = Return (PStr s)) \/
   ("all" = "all" /\
    exists l, l <> [] /\
      _get_pos_name "NSF" "all" true POS_MAP = Return (PTuple (map PStr l)))).
Proof.
  assert (Hn : In "all" valid_names) by (simpl; auto).
  assert (Hne : "NSF" <> EmptyString) by discriminate.
  exact (conj Hn (conj Hne (X2_result_types "NSF" "all" true POS_MAP Hn Hne))).
Defined.

(** X3.  For a non-empty ASCII code, ['parent'] and ['all'] return [None]
    exactly when no non-empty key of the map is a prefix of the lower-cased
    code. *)
Theorem X3_None_iff_no_key_is_prefix
    (pos_code names : string) (english : bool) (pos_map : dict) :
  is_ascii pos_code = true ->
  pos_code <> EmptyString ->
  names = "parent" \/ names = "all" ->
  (_get_pos_name pos_code names english pos_map = Return PNone <->
   forall k, In k (map fst pos_map) -> k <> EmptyString ->
     prefix k (lower pos_code) = false).
Proof.
  intros _ Hne Hn. rewrite <- lower_empty in Hne.
  rewrite <- no_match_iff_no_key_prefix.
  destruct (_get_pos_name_results pos_code english pos_map Hne)
    as (p & ok & D & Ha & _ & Hp).
  assert (R : _get_pos_name pos_code names english pos_map =
              Return (match p with
                      | [] => PNone
                      | e :: _ => if names =? "all" then PTuple (names_of english p)
                                  else PStr (entry_name english e)
                      end)).
  { destruct Hn as [-> | ->]; [rewrite Hp | rewrite Ha]; destruct p; reflexivity. }
  rewrite R. split.
  - intros H. destruct p as [|e p].
    + destruct (descent_total (lower pos_code) pos_map) as (p' & ok' & D').
      inversion D; subst; assumption.
    + destruct (names =? "all"); discriminate.
  - intros NM. destruct p as [|e p]; [reflexivity|].
    exfalso. inversion D; subst;
      eapply first_match_no_match; eassumption.
Qed.

Lemma X3_None_iff_no_key_is_prefix_witness :
  is_ascii "Jx" = true /\
  "Jx" <> EmptyString /\
  (_get_pos_name "Jx" "parent" true POS_MAP = Return PNone <->
   forall k, In k (map fst POS_MAP) -> k <> EmptyString ->
     prefix k (lower "Jx") = false).
Proof.
  assert (Ha : is_ascii "Jx" = true) by reflexivity.
  assert (Hne : "Jx" <> EmptyString) by discriminate.
  exact (conj Ha (conj Hne
    (X3_None_iff_no_key_is_prefix "Jx" "parent" true POS_MAP Ha Hne
       (or_introl eq_refl)))).
Defined.

(** X4.  ['parent'] and ['all'] are [None] together, and then so is
    ['child']; when ['parent'] returns a name, ['all'] returns a tuple that
    starts with it, also when ['child'] returns [None]. *)
Theorem X4_parent_and_all_recognise_together
    (pos_code : string) (english : bool) (pos_map : dict) :
  (_get_pos_name pos_code "parent" english pos_map = Return PNone <->
   _get_pos_name pos_code "all" english pos_map = Return PNone) /\
  (_get_pos_name pos_code "parent" english pos_map = Return PNone ->
   _get_pos_name pos_code "child" english pos_map = Return PNone) /\
  (forall s,
     _get_pos_name pos_code "parent" english pos_map = Return (PStr s) ->
     exists t,
       _get_pos_name pos_code "all" english pos_map =
       Return (PTuple (PStr s :: t))).
Proof.
  destruct (string_dec (lower pos_code) EmptyString) as [E|E].
  - rewrite (_get_pos_name_empty pos_code "parent" english pos_map eq_refl E).
    rewrite (_get_pos_name_empty pos_code "all" english pos_map eq_refl E).
    repeat split; intros; discriminate.
  - destruct (_get_pos_name_results pos_code english pos_map E)
      as (p & ok & D & Ha & Hc & Hp).
    rewrite Ha, Hc, Hp. destruct p as [|e p].
    + assert (ok = false) as -> by (inversion D; reflexivity).
      repeat split; intros; auto; discriminate.
    + split; [split; intros; discriminate|]. split; [intros; discriminate|].
      intros s [= <-]. eexists. reflexivity.
Qed.

Lemma X4_parent_and_all_recognise_together_witness :
  _get_pos_name "nx" "parent" true POS_MAP = Return (PStr "noun") /\
  _get_pos_name "nx" "child" true POS_MAP = Return PNone /\
  exists t,
    _get_pos_name "nx" "all" true POS_MAP = Return (PTuple (PStr "noun" :: t)).
Proof.
  assert (Hp : _get_pos_name "nx" "parent" true POS_MAP = Return (PStr "noun"))
    by (vm_compute; reflexivity).
  assert (Hc : _get_pos_name "nx" "child" true POS_MAP = Return PNone)
    by (vm_compute; reflexivity).
  exact (conj Hp (conj Hc
    (proj2 (proj2 (X4_parent_and_all_recognise_together "nx" true POS_MAP))
       _ Hp))).
Defined.

(** X5.  For a non-empty ASCII code, ['child'] returns [None] exactly when the
    descent ends on a scan that finds no key, at the top level or below an
    entry already matched; ['all'] then still returns the names of the
    entries matched before that scan. *)
Theorem X5_child_None_iff_a_scan_fails
    (pos_code : string) (english : bool) (pos_map : dict) :
  is_ascii pos_code = true ->
  pos_code <> EmptyString ->
  (_get_pos_name pos_code "child" english pos_map = Return PNone <->
   exists p, descent (lower pos_code) pos_map p false) /\
  (forall p, descent (lower pos_code) pos_map p false ->
     _get_pos_name pos_code "all" english pos_map =
     Return (match p with [] => PNone | _ => PTuple (names_of english p) end)).
Proof.
  intros _ Hne. rewrite <- lower_empty in Hne. split.
  - split.
    + intros H.
      destruct (_get_pos_name_results pos_code english pos_map Hne)
        as (p & ok & D & _ & Hc & _).
      destruct ok; [|eauto].
      rewrite Hc in H. pose proof (descent_ok_nonempty _ _ _ D) as Hp.
      rewrite names_of_map, last_map_PStr in H; [discriminate|].
      destruct p; [congruence | discriminate].
    + intros [p D]. now apply (failed_deeper_scan _ english _ _ Hne D).
  - intros p D. now apply (failed_deeper_scan _ english _ _ Hne D).
Qed.

Lemma X5_child_None_iff_a_scan_fails_witness :
  is_ascii "gax" = true /\
  "gax" <> EmptyString /\
  (exists p, descent (lower "gax") POS_MAP p false) /\
  _get_pos_name "gax" "child" true POS_MAP = Return PNone.
Proof.
  assert (Ha : is_ascii "gax" = true) by reflexivity.
  assert (Hne : "gax" <> EmptyString) by discriminate.
  assert (Hc : _get_pos_name "gax" "child" true POS_MAP = Return PNone)
    by (vm_compute; reflexivity).
  exact (conj Ha (conj Hne (conj
    (proj1 (proj1 (X5_child_None_iff_a_scan_fails "gax" true POS_MAP Ha Hne))
       Hc)
    Hc))).
Defined.

Lemma first_match_app m c s i e :
  first_match m c i e -> first_match m (c ++ s) i e.
Proof.
  intros (Hi & G & B). repeat split.
  - lia.
  - rewrite length_app. lia.
  - rewrite slice0_app by lia. exact G.
  - intros j Hj. rewrite slice0_app by lia. now apply B.
Qed.

Lemma descent_extend c s m p ok :
  descent c m p ok -> exists p' ok', descent (c ++ s) m (p ++ p') ok'.
Proof.
  induction 1 as [m NM|m i zh en FM|m i e FM Hw|m i zh en sub_map p ok FM Hw D IH].
  - apply descent_total.
  - exists [], true. eapply descent_leaf. eapply first_match_app; eauto.
  - pose proof (first_match_app _ _ s _ _ FM) as FM'.
    destruct e as [zh en|zh en sub_map].
    + exists [], true. eapply descent_leaf; eauto.
    + destruct (string_dec (slice0 (c ++ s) i) (c ++ s)) as [Hw'|Hw'].
      * exists [], true. eapply descent_whole; eauto.
      * destruct (descent_total (c ++ s) sub_map) as (p' & ok' & D').
        exists p', ok'. eapply descent_into; eauto.
  - destruct IH as (p' & ok' & D').
    exists p', ok'. simpl. eapply descent_into; eauto.
    + eapply first_match_app; eauto.
    + destruct FM as (Hi & _). rewrite slice0_app by lia.
      intros E. apply Hw. rewrite E.
      apply (f_equal String.length) in E.
      rewrite slice0_length, length_app in E.
      assert (Hs : String.length s = 0) by lia.
      destruct s; [|discriminate]. clear.
      induction c as [|x c IH]; simpl; [reflexivity | now rewrite IH].
Qed.

(** X6.  ASCII characters appended to an ASCII code never lose what was
    recognised: a name returned by ['parent'] stays the same, and a tuple
    returned by ['all'] is kept as the beginning of the new tuple. *)
Theorem X6_longer_code_keeps_names
    (pos_code suffix : string) (english : bool) (pos_map : dict) :
  is_ascii pos_code = true -> is_ascii suffix = true ->
  (forall s,
     _get_pos_name pos_code "parent" english pos_map = Return (PStr s) ->
     _get_pos_name (pos_code ++ suffix) "parent" english pos_map =
     Return (PStr s)) /\
  (forall t,
     _get_pos_name pos_code "all" english pos_map = Return (PTuple t) ->
     exists t',
       _get_pos_name (pos_code ++ suffix) "all" english pos_map =
       Return (PTuple (t ++ t'))).
Proof.
  intros _ _.
  destruct (string_dec (lower pos_code) EmptyString) as [E|E].
  { rewrite (_get_pos_name_empty pos_code "parent" english pos_map eq_refl E).
    rewrite (_get_pos_name_empty pos_code "all" english pos_map eq_refl E).
    split; intros; discriminate. }
  destruct (_get_pos_name_results pos_code english pos_map E)
    as (p & ok & D & Ha & _ & Hp).
  destruct (descent_extend _ (lower suffix) _ _ _ D) as (p' & ok' & D').
  rewrite <- lower_app in D'.
  assert (E' : lower (pos_code ++ suffix) <> EmptyString).
  { rewrite lower_app. destruct (lower pos_code); [congruence | discriminate]. }
  destruct (descent_sound _ _ _ _ D' (lower_idem _) E' english) as (Ha' & _ & Hp').
  rewrite <- !(_get_pos_name_lower (pos_code ++ suffix)) in Ha', Hp'.
  rewrite Ha, Hp, Ha', Hp'. destruct p as [|e p].
  - split; intros; discriminate.
  - split; [intros s H; exact H|].
    intros t [= <-]. exists (names_of english p').
    cbn [app]. unfold names_of. now rewrite <- map_app.
Qed.

Lemma X6_longer_code_keeps_names_witness :
  is_ascii "n" = true /\ is_ascii "sf" = true /\
  _get_pos_name "n" "all" false POS_MAP = Return (PTuple [PStr "名词"]) /\
  exists t',
    _get_pos_name ("n" ++ "sf") "all" false POS_MAP =
    Return (PTuple ([PStr "名词"] ++ t')).
Proof.
  assert (Ha : _get_pos_name "n" "all" false POS_MAP =
               Return (PTuple [PStr "名词"])) by (vm_compute; reflexivity).
  exact (conj eq_refl (conj eq_refl (conj Ha
    (proj2 (X6_longer_code_keeps_names "n" "sf" false POS_MAP eq_refl eq_refl)
       _ Ha)))).
Defined.

Lemma slice0_one_char a rest j :
  String.length (slice0 (String a rest) j) = 1 ->
  slice0 (String a rest) j = String a EmptyString.
Proof.
  unfold slice0. destruct j as [|j]; simpl; [discriminate|].
  intros [= H]. destruct (substring 0 j rest); [reflexivity | discriminate].
Qed.

Lemma slice0_first a rest : slice0 (String a rest) 1 = String a EmptyString.
Proof. destruct rest; reflexivity. Qed.

(** In a map whose keys are single characters the scan is decided by the
    first character of the code. *)
Lemma one_char_keys_scan m a rest :
  (forall k, In k (map fst m) -> String.length k = 1) ->
  match dict_get m (String a EmptyString) with
  | Some e => first_match m (String a rest) 1 e
  | None => no_match m (String a rest)
  end.
Proof.
  intros Hk. destruct (dict_get m (String a EmptyString)) as [e|] eqn:G.
  - split; [simpl; lia|]. split; [now rewrite slice0_first|].
    intros j Hj; lia.
  - intros j Hj.
    destruct (dict_get m (slice0 (String a rest) j)) as [e|] eqn:G'; auto.
    pose proof (dict_get_In _ _ _ G') as Hin.
    apply (in_map fst) in Hin. apply Hk in Hin. cbn [fst] in Hin.
    rewrite (slice0_one_char _ _ _ Hin) in G'. congruence.
Qed.

(** X7.  Every top-level code of [POS_MAP] is a single character, so in
    [POS_MAP] the ['parent'] name of a code depends on its first character
    only. *)
Theorem X7_parent_reads_first_character
    (a : ascii) (rest : string) (english : bool) :
  get_pos_name (String a rest) "parent" english =
  get_pos_name (String a EmptyString) "parent" english.
Proof.
  assert (Hk : forall k, In k (map fst POS_MAP) -> String.length k = 1).
  { assert (F : forallb (fun k => (String.length k =? 1)%nat)
                  (map fst POS_MAP) = true) by (vm_compute; reflexivity).
    intros k Hin. rewrite forallb_forall in F.
    now apply Nat.eqb_eq, F. }
  unfold get_pos_name.
  pose proof (one_char_keys_scan POS_MAP (lower_ascii a) (lower rest) Hk) as L.
  pose proof (one_char_keys_scan POS_MAP (lower_ascii a) EmptyString Hk) as L1.
  destruct (dict_get POS_MAP (String (lower_ascii a) EmptyString)) as [e|].
  - rewrite (_get_pos_name_parent (String a rest) english POS_MAP 1 e L).
    rewrite (_get_pos_name_parent (String a EmptyString) english POS_MAP 1 e L1).
    reflexivity.
  - rewrite !_get_pos_name_miss; auto; discriminate.
Qed.

Lemma descent_length c m p ok :
  descent c m p ok -> List.length p <= S (dict_depth m).
Proof.
  induction 1 as [m NM|m i zh en FM|m i e FM Hw|m i zh en sub_map p ok FM Hw D IH];
    simpl; try lia.
  destruct FM as (_ & G & _). apply dict_get_sub_depth in G. lia.
Qed.

(** X8.  A tuple returned by ['all'] has at least one name and at most one
    name per nesting level of the map; from [POS_MAP], at most three. *)
Theorem X8_all_tuple_length :
  (forall pos_code english pos_map t,
     _get_pos_name pos_code "all" english pos_map = Return (PTuple t) ->
     1 <= List.length t <= S (dict_depth pos_map)) /\
  (forall code english t,
     get_pos_name code "all" english = Return (PTuple t) ->
     1 <= List.length t <= 3).
Proof.
  assert (G : forall pos_code english pos_map t,
     _get_pos_name pos_code "all" english pos_map = Return (PTuple t) ->
     1 <= List.length t <= S (dict_depth pos_map)).
  { intros c english m t H.
    destruct (string_dec (lower c) EmptyString) as [E|E].
    { rewrite (_get_pos_name_empty c "all" english m eq_refl E) in H.
      discriminate. }
    destruct (_get_pos_name_results c english m E) as (p & ok & D & Ha & _).
    rewrite Ha in H. apply descent_length in D.
    destruct p as [|e p]; [discriminate|]. injection H as <-.
    simpl in *. unfold names_of. rewrite length_map. lia. }
  split; [exact G|].
  intros code english t H. apply G in H.
  change (dict_depth POS_MAP) with 2 in H. exact H.
Qed.

Lemma X8_all_tuple_length_witness :
  get_pos_name "gnbj" "all" true =
    Return (PTuple [PStr "others"; PStr "news"; PStr "news bj"]) /\
  1 <= List.length [PStr "others"; PStr "news"; PStr "news bj"] <= 3.
Proof.
  assert (Ha : get_pos_name "gnbj" "all" true =
    Return (PTuple [PStr "others"; PStr "news"; PStr "news bj"]))
    by (vm_compute; reflexivity).
  exact (conj Ha (proj2 X8_all_tuple_length "gnbj" true _ Ha)).
Defined.

(** X9.  Every node of [POS_MAP] other than ["gakrn"] and ["gwzj"], leaf or
    not, is found under its own code: ['child'] returns the node's own
    name, ['all'] the names on the way to it, ['parent'] the name of its
    top-level ancestor, in either language. *)
Theorem X9_nodes_resolve_to_themselves
    (code : string) (path : list entry) (english : bool) :
  In (code, path) (paths POS_MAP) ->
  code <> "gakrn" -> code <> "gwzj" ->
  get_pos_name code "child" english =
    Return (last (names_of english path) PNone) /\
  get_pos_name code "all" english = Return (PTuple (names_of english path)) /\
  get_pos_name code "parent" english =
    Return (hd PNone (names_of english path)).
Proof.
  assert (F : forallb
    (fun cp =>
       (fst cp =? "gakrn") || (fst cp =? "gwzj") ||
       forallb (fun english =>
           let l := map (entry_name english) (snd cp) in
           negb (List.length l =? 0)%nat &&
           returns_str (get_pos_name (fst cp) "child" english)
                       (last l EmptyString) &&
           returns_strs (get_pos_name (fst cp) "all" english) l &&
           returns_str (get_pos_name (fst cp) "parent" english)
                       (hd EmptyString l))
         [true; false])
    (paths POS_MAP) = true) by (vm_compute; reflexivity).
  intros Hin N1 N2. rewrite forallb_forall in F.
  specialize (F _ Hin). cbn [fst snd] in F.
  apply orb_true_iff in F as [F|F].
  { apply orb_true_iff in F as [F|F]; apply String.eqb_eq in F; contradiction. }
  rewrite forallb_forall in F.
  specialize (F english ltac:(destruct english; simpl; auto)).
  apply andb_true_iff in F as [F Fp]. apply andb_true_iff in F as [F Fa].
  apply andb_true_iff in F as [Fl Fc].
  apply returns_str_eq in Fc, Fp. apply returns_strs_eq in Fa.
  rewrite names_of_map, Fc, Fa, Fp.
  destruct (map (entry_name english) path) as [|s l] eqn:E; [discriminate|].
  rewrite last_map_PStr by discriminate. repeat split.
Qed.

Lemma X9_nodes_resolve_to_themselves_witness :
  exists path,
    In ("gakr", path) (paths POS_MAP) /\
    get_pos_name "gakr" "all" true = Return (PTuple (names_of true path)) /\
    names_of true path =
      [PStr "others"; PStr "news agency"; PStr "news agency kr"].
Proof.
  destruct (find (fun cp => fst cp =? "gakr") (paths POS_MAP))
    as [[c p]|] eqn:F; [|vm_compute in F; discriminate].
  exists p.
  pose proof (find_some _ _ F) as [Hin E].
  apply String.eqb_eq in E. simpl in E. subst c.
  assert (N1 : "gakr" <> "gakrn") by discriminate.
  assert (N2 : "gakr" <> "gwzj") by discriminate.
  refine (conj Hin (conj
    (proj1 (proj2 (X9_nodes_resolve_to_themselves "gakr" p true Hin N1 N2))) _)).
  vm_compute in F. injection F as <-. reflexivity.
Defined.

Lemma keys_uniqueb_NoDup l : keys_uniqueb l = true -> NoDup l.
Proof.
  induction l as [|k l IH]; simpl; [constructor|].
  intros H. apply andb_true_iff in H as [Hk Hl].
  constructor; [|auto].
  intros Hin. apply negb_true_iff in Hk.
  assert (E : existsb (String.eqb k) l = true).
  { apply existsb_exists. exists k. split; [exact Hin | apply String.eqb_refl]. }
  congruence.
Qed.

(** X10.  The codes of [POS_MAP] are well formed for the lookup: no code
    occurs twice in the whole taxonomy, none is empty, and every one is in
    lower case, which is the form the lookup compares with. *)
Theorem X10_codes_well_formed :
  NoDup (map fst (all_nodes POS_MAP)) /\
  (forall k e, In (k, e) (all_nodes POS_MAP) ->
     k <> EmptyString /\ lower k = k).
Proof.
  split.
  - apply keys_uniqueb_NoDup. vm_compute. reflexivity.
  - assert (F : forallb (fun ke => negb (fst ke =? EmptyString) &&
                                   (lower (fst ke) =? fst ke))
                  (all_nodes POS_MAP) = true) by (vm_compute; reflexivity).
    intros k e Hin. rewrite forallb_forall in F.
    specialize (F _ Hin). cbn [fst] in F.
    apply andb_true_iff in F as [Fn Fl].
    apply negb_true_iff, String.eqb_neq in Fn.
    apply String.eqb_eq in Fl. auto.
Qed.

Lemma X10_codes_well_formed_witness :
  In ("udeng", Tuple2 "等／等等／云云" "particle 等/等等/云云")
     (all_nodes POS_MAP) /\
  "udeng" <> EmptyString /\ lower "udeng" = "udeng".
Proof.
  assert (Hin : In ("udeng", Tuple2 "等／等等／云云" "particle 等/等等/云云")
                   (all_nodes POS_MAP)).
  { apply (nth_error_In _ 64). reflexivity. }
  exact (conj Hin (proj2 X10_codes_well_formed _ _ Hin)).
Defined.

(** X11.  The language selects the strings and nothing else: for the same
    code, [names] and map, the English and the Chinese call raise the same
    exception or both return, return [None] together, and return tuples of
    the same length. *)
Theorem X11_language_selects_strings_only
    (pos_code names : string) (pos_map : dict) :
  (forall x,
     _get_pos_name pos_code names true pos_map = Raise x <->
     _get_pos_name pos_code names false pos_map = Raise x) /\
  (_get_pos_name pos_code names true pos_map = Return PNone <->
   _get_pos_name pos_code names false pos_map = Return PNone) /\
  (forall t,
     _get_pos_name pos_code names true pos_map = Return (PTuple t) ->
     exists t',
       _get_pos_name pos_code names false pos_map = Return (PTuple t') /\
       List.length t' = List.length t).
Proof.
  destruct (names_ok names) eqn:Hn.
  2:{ rewrite !(_get_pos_name_invalid _ _ _ _ Hn).
      repeat split; intros; auto; discriminate. }
  destruct (string_dec (lower pos_code) EmptyString) as [E|E].
  { rewrite !(_get_pos_name_empty _ _ _ _ Hn E).
    repeat split; intros; auto; discriminate. }
  destruct (descent_total (lower pos_code) pos_map) as (p & ok & D).
  pose proof (descent_sound _ _ _ _ D (lower_idem _) E) as S.
  rewrite !(_get_pos_name_lower pos_code).
  destruct (S true) as (Ha & Hc & Hp). destruct (S false) as (Ha' & Hc' & Hp').
  apply names_ok_In in Hn. simpl in Hn.
  destruct Hn as [<-|[<-|[<-|[]]]].
  - rewrite Hp, Hp'. destruct p;
      repeat split; intros; auto; discriminate.
  - rewrite Hc, Hc'. destruct ok.
    + apply descent_ok_nonempty in D.
      assert (L : forall english,
                exists s, last (names_of english p) PNone = PStr s).
      { intros english. rewrite names_of_map, last_map_PStr; [eauto|].
        destruct p; [congruence | discriminate]. }
      destruct (L true) as [s ->]. destruct (L false) as [s' ->].
      repeat split; intros; discriminate.
    + repeat split; intros; auto; discriminate.
  - rewrite Ha, Ha'. destruct p as [|e p].
    + repeat split; intros; auto; discriminate.
    + split; [split; intros; discriminate|].
      split; [split; intros; discriminate|].
      intros t [= <-]. eexists. split; [reflexivity|].
      simpl. f_equal. unfold names_of. now rewrite !length_map.
Qed.

Lemma X11_language_selects_strings_only_witness :
  _get_pos_name "rzt" "all" true POS_MAP =
    Return (PTuple [PStr "pronoun"; PStr "demonstrative pronoun";
                    PStr "temporal demonstrative pronoun"]) /\
  exists t',
    _get_pos_name "rzt" "all" false POS_MAP = Return (PTuple t') /\
    List.length t' = 3.
Proof.
  assert (Ha : _get_pos_name "rzt" "all" true POS_MAP =
    Return (PTuple [PStr "pronoun"; PStr "demonstrative pronoun";
                    PStr "temporal demonstrative pronoun"]))
    by (vm_compute; reflexivity).
  exact (conj Ha
    (proj2 (proj2 (X11_language_selects_strings_only "rzt" "all" POS_MAP))
       _ Ha)).
Defined.

(** ** Properties of [_is_404] *)

Lemma _is_404_loop_app l1 l2 :
  _is_404_loop (l1 ++ l2) = _is_404_loop l1 || _is_404_loop l2.
Proof.
  induction l1 as [|h l1 IH]; simpl; [reflexivity|].
  destruct (prefix "Status: 404 Not Found" h); [reflexivity | exact IH].
Qed.

(** X12.  [_is_404] answers [True] exactly when some header line starts
    with the text [Status: 404 Not Found]; so it is [False] for a message
    without header lines, and for the lines of two messages put together it
    is the disjunction of the two answers. *)
Theorem X12_is_404_iff_some_line_starts_with_marker :
  (forall hdrs,
     _is_404 hdrs = true <->
     exists header,
       In header (headers hdrs) /\
       prefix "Status: 404 Not Found" header = true) /\
  (forall l1 l2,
     _is_404 {| headers := l1 ++ l2 |} =
     _is_404 {| headers := l1 |} || _is_404 {| headers := l2 |}).
Proof.
  split.
  - intros [lines]. unfold _is_404. cbn [headers].
    induction lines as [|h lines IH]; simpl.
    + split; [discriminate | intros (h & [] & _)].
    + destruct (prefix "Status: 404 Not Found" h) eqn:P.
      * split; [eauto | reflexivity].
      * rewrite IH. split.
        -- intros (x & Hin & Hx). eauto.
        -- intros (x & [<-|Hin] & Hx); [congruence | eauto].
  - intros l1 l2. apply _is_404_loop_app.
Qed.

(** ** Keys that hide a sibling *)

Lemma slice0_slice0 c i j : j <= i -> slice0 (slice0 c i) j = slice0 c j.
Proof.
  unfold slice0. revert c j.
  induction i as [|i IH]; intros [|x c] [|j] H; simpl; try reflexivity; try lia.
  f_equal. apply IH. lia.
Qed.

Lemma prefix_same_length k1 k2 :
  prefix k1 k2 = true -> String.length k1 = String.length k2 -> k1 = k2.
Proof.
  intros P L. apply prefix_slice0 in P. rewrite L, slice0_all in P. auto.
Qed.

(** X13.  The scan stops at the shortest key that is a prefix of the code.
    So a key that has another non-empty key of the same map as a proper
    prefix is never the key the loop breaks at, whatever the code: the entry
    filed under it cannot be reached. *)
Theorem X13_key_with_prefix_sibling_is_never_matched
    (pos_map : dict) (k1 k2 pos_code : string) (e : entry) :
  In k1 (map fst pos_map) ->
  k1 <> EmptyString -> k1 <> k2 -> prefix k1 k2 = true ->
  for_loop pos_code pos_map (range 1 (String.length pos_code + 1)) <>
  Broke k2 e.
Proof.
  intros Hin Hne Hd P L. rewrite range_1_len in L.
  pose proof (for_loop_seq pos_code pos_map (String.length pos_code) 1
                ltac:(lia)) as S.
  rewrite L in S. destruct S as (i & Hi & -> & G & B).
  pose proof (prefix_length _ _ P) as Hle.
  rewrite slice0_length in Hle.
  assert (Hlt : String.length k1 < i).
  { destruct (Nat.eq_dec (String.length k1) i) as [E|E]; [|lia].
    exfalso. apply Hd. apply prefix_same_length; [exact P|].
    rewrite slice0_length. lia. }
  apply prefix_slice0 in P. rewrite slice0_slice0 in P by lia.
  destruct (In_key_dict_get _ _ Hin) as [e1 G1].
  rewrite <- P in G1. rewrite B in G1; [discriminate|].
  split; [|exact Hlt]. destruct k1; [congruence | simpl; lia].
Qed.

Lemma X13_key_with_prefix_sibling_is_never_matched_witness :
  In "gwz" (map fst [("gwz", Tuple2 "网站z" "website z");
                     ("gwzj", Tuple2 "网站zj" "website zj")]) /\
  for_loop "gwzj" [("gwz", Tuple2 "网站z" "website z");
                   ("gwzj", Tuple2 "网站zj" "website zj")]
    (range 1 (String.length "gwzj" + 1)) <>
  Broke "gwzj" (Tuple2 "网站zj" "website zj").
Proof.
  assert (Hin : In "gwz" (map fst [("gwz", Tuple2 "网站z" "website z");
                                   ("gwzj", Tuple2 "网站zj" "website zj")]))
    by (simpl; auto).
  assert (Hne : "gwz" <> EmptyString) by discriminate.
  assert (Hd : "gwz" <> "gwzj") by discriminate.
  assert (P : prefix "gwz" "gwzj" = true) by reflexivity.
  exact (conj Hin
    (X13_key_with_prefix_sibling_is_never_matched _ "gwz" "gwzj" "gwzj"
       (Tuple2 "网站zj" "website zj") Hin Hne Hd P)).
Defined.
